(** * Evacuation routing: hazard-aware shortest paths

    A shallow embedding of [js/routing.js] (with the parts of [js/data.js]
    and [js/main.js] it reads) and the proofs of its routing contract,
    followed by the computations of [js/render.js] (node centres, the
    evacuation line, the class of a room, the status bar) and the event
    handlers of [js/main.js] and [js/render.js], with what they guarantee.

    Modelling conventions.
    - JS objects used as dictionaries ([haz], [hazSnap], [adj], [dist],
      [prev]) are finite maps keyed by strings: a map holds the properties
      of the object itself.  A read of a key that the object does not
      hold falls through to [Object.prototype]: for the names of
      [PROTO_NAMES] it finds an inherited member, for every other key
      [undefined].  The reads on which this matters are modelled as
      such: [getHaz] gives [Member], the iteration over [adj[u]] throws
      ([neighbours]); in a comparison of numbers and in the tests against
      hazard kinds an inherited member behaves like [undefined].
      Statements about writes carry the hypothesis [ordinaryKey] where
      the names of the prototype behave otherwise, and floor definitions
      are taken not to declare a node under the name [__proto__], the one
      key that an assignment does not create.
    - Edge weights and distances are integers ([Z]); the JS value
      [Infinity] is the extra element [Infinity] of [num].  The search is
      given twice: [dijkstra], [findRoute] add weights as integers;
      [dijkstraF], [findRouteF] are the same code with every sum rounded
      as the doubles of JS round it ([fl]).  The two agree on the floors
      with [safeSums] ([doubles_agree]), which the floors of the building
      are: there a theorem about the first is a theorem about the code.
      Minimality, the tie-break, the shape of a route and the tables of
      the search are stated on the second.
      Reading a key that is absent gives [undefined], modelled by [None];
      every comparison with [undefined] is false, as in JS.
    - Labels of rooms and exits, which only the renderer reads, are left
      out of the building data.  A pixel coordinate is an integer, or
      [None] where an index outside the grid leaves no number; writes to
      the document are not modelled.
    - A [TypeError] raised by the code is the outcome [Thrown].  The two
      [while] loops are run with a fuel argument, one unit per turn;
      [OutOfFuel] means that the loop did not finish within it.  The
      theorem [findRoute_total] gives the fuel that always suffices on a
      well-formed floor. *)

From stdpp Require Import gmap strings list fin_maps.

Local Open Scope string_scope.
Local Open Scope Z_scope.
Local Open Scope list_scope.

(** ** Outcomes of a call *)

Inductive outcome (A : Type) : Type :=
| Returned (a : A)
| Thrown
| OutOfFuel.
Arguments Returned {A} a.
Arguments Thrown {A}.
Arguments OutOfFuel {A}.

Global Instance outcome_bind : MBind outcome := λ A B k o,
  match o with
  | Returned a => k a
  | Thrown => Thrown
  | OutOfFuel => OutOfFuel
  end.

(** ** Building data ([js/data.js]) *)

Inductive side := bottom | top | left | right.

Module Room.
Record t := mk { id : string; col : nat; row : nat; isStair : bool }.
End Room.

Module Exit.
Record t := mk { id : string; side_of : side; col : nat }.
End Exit.

(** An edge is the triple [[a, b, w]]. *)
Abbreviation edge := (string * string * Z)%type.

Record FloorDef := {
  rooms : list Room.t;
  exits : list Exit.t;
  edges : list edge;
}.

Definition GCOL : list Z := [110; 360; 610].
Definition GROW : list Z := [130; 260; 390].
Definition RW : Z := 180.
Definition RH : Z := 80.

(** A rectangle [{x, y, w, h}]; [None] stands for what an index outside
    the grid leaves in place of a number ([undefined], or the [NaN] of the
    arithmetic on it). *)
Record rect := { rx : option Z; ry : option Z; rw : Z; rh : Z }.

Definition EXIT_DEFS (s : side) (c : nat) : rect :=
  match s with
  | bottom => {| rx := (λ g, g - 90) <$> GCOL !! c; ry := Some 462; rw := 180; rh := 28 |}
  | top => {| rx := (λ g, g - 90) <$> GCOL !! c; ry := Some 20; rw := 180; rh := 28 |}
  | left => {| rx := Some 20; ry := (λ g, g - 22) <$> GROW !! 1%nat; rw := 28; rh := 44 |}
  | right => {| rx := Some 672; ry := (λ g, g - 22) <$> GROW !! 1%nat; rw := 28; rh := 44 |}
  end.

(** A room or an exit with its pixel geometry: the object
    [{ ...r, x, y, w, h, cx, cy }]. *)
Record placed (A : Type) := {
  spec_of : A;
  box : rect;
  cx : option Z;
  cy : option Z;
}.
Arguments spec_of {A} _.
Arguments box {A} _.
Arguments cx {A} _.
Arguments cy {A} _.

Definition placeRoom (r : Room.t) : placed Room.t :=
  let cx := GCOL !! Room.col r in
  let cy := GROW !! Room.row r in
  {| spec_of := r;
     box := {| rx := (λ c, c - RW / 2) <$> cx; ry := (λ c, c - RH / 2) <$> cy;
               rw := RW; rh := RH |};
     cx := cx; cy := cy |}.

Definition placeExit (e : Exit.t) : placed Exit.t :=
  let d := EXIT_DEFS (Exit.side_of e) (Exit.col e) in
  {| spec_of := e;
     box := d;
     cx := (λ x, x + rw d / 2) <$> rx d;
     cy := (λ y, y + rh d / 2) <$> ry d |}.

Definition computeCoords (fd : FloorDef) : list (placed Room.t) * list (placed Exit.t) :=
  (placeRoom <$> rooms fd, placeExit <$> exits fd).

Definition roomId (r : placed Room.t) : string := Room.id (spec_of r).
Definition exitId_of (e : placed Exit.t) : string := Exit.id (spec_of e).

Definition R (i : string) (c r : nat) : Room.t := Room.mk i c r false.
Definition Stair (i : string) (c r : nat) : Room.t := Room.mk i c r true.

Definition GF : FloorDef := {|
  rooms := [ R "entrance" 0 0; R "reception" 1 0; R "control" 2 0;
             R "main_hall" 1 1; R "kitchen" 2 1; R "washroom" 0 2;
             Stair "stairGF" 2 2 ];
  exits := [ Exit.mk "exitA" bottom 0; Exit.mk "exitB" top 2 ];
  edges := [ ("entrance", "reception", 1); ("reception", "control", 1);
             ("entrance", "main_hall", 1); ("reception", "main_hall", 1);
             ("control", "kitchen", 1);
             ("main_hall", "kitchen", 1);
             ("main_hall", "washroom", 1); ("kitchen", "stairGF", 1);
             ("washroom", "stairGF", 1);
             ("entrance", "exitA", 1); ("washroom", "exitA", 1);
             ("stairGF", "exitA", 1);
             ("control", "exitB", 1); ("reception", "exitB", 1);
             ("kitchen", "exitB", 1) ];
|}.

Definition F1 : FloorDef := {|
  rooms := [ R "r101" 0 0; R "office1" 2 0; R "lobby1" 1 1; R "wash1" 2 1;
             R "r102" 0 2; Stair "stairF1" 1 2; R "storage1" 2 2 ];
  exits := [ Exit.mk "stairF1_exit" bottom 1 ];
  edges := [ ("r101", "lobby1", 1); ("office1", "lobby1", 1);
             ("office1", "wash1", 1);
             ("lobby1", "wash1", 1);
             ("lobby1", "r102", 1); ("lobby1", "stairF1", 1);
             ("wash1", "storage1", 1);
             ("r102", "stairF1", 1); ("stairF1", "storage1", 1);
             ("stairF1", "stairF1_exit", 1) ];
|}.

Definition F2 : FloorDef := {|
  rooms := [ R "r201" 0 0; R "kitchen2" 2 0; R "lobby2" 1 1; R "wash2" 2 1;
             R "r202" 0 2; Stair "stairF2" 1 2; R "server" 2 2 ];
  exits := [ Exit.mk "stairF2_exit" bottom 1 ];
  edges := [ ("r201", "lobby2", 1); ("kitchen2", "lobby2", 1);
             ("kitchen2", "wash2", 1);
             ("lobby2", "wash2", 1);
             ("lobby2", "r202", 1); ("lobby2", "stairF2", 1);
             ("wash2", "server", 1);
             ("r202", "stairF2", 1); ("stairF2", "server", 1);
             ("stairF2", "stairF2_exit", 1) ];
|}.

Definition F3 : FloorDef := {|
  rooms := [ R "r301" 0 0; R "r303" 2 0; R "wash3" 0 1; R "lobby3" 1 1;
             R "balcony" 2 1; R "r302" 0 2; Stair "stairF3" 1 2 ];
  exits := [ Exit.mk "stairF3_exit" bottom 1 ];
  edges := [ ("r301", "wash3", 1); ("r301", "lobby3", 1);
             ("r303", "lobby3", 1); ("r303", "balcony", 1);
             ("wash3", "lobby3", 1); ("lobby3", "balcony", 1);
             ("wash3", "r302", 1); ("lobby3", "stairF3", 1);
             ("balcony", "stairF3", 1);
             ("r302", "stairF3", 1);
             ("stairF3", "stairF3_exit", 1) ];
|}.

Definition B : FloorDef := {|
  rooms := [ R "storage_b" 1 0; R "electrical" 2 0; R "parking" 0 1;
             R "generator" 2 2; Stair "stairB" 1 2 ];
  exits := [ Exit.mk "emExit" left 0; Exit.mk "stairB_exit" bottom 1 ];
  edges := [ ("storage_b", "electrical", 1); ("parking", "storage_b", 1);
             ("stairB", "generator", 1);
             ("parking", "stairB", 1); ("electrical", "generator", 1);
             ("storage_b", "stairB", 1);
             ("parking", "emExit", 1); ("stairB", "stairB_exit", 1) ];
|}.

Definition BLDG : gmap string FloorDef :=
  <["GF" := GF]> (<["F1" := F1]> (<["F2" := F2]> (<["F3" := F3]> (<["B" := B]> ∅)))).

(** ** Global state ([js/main.js]) *)

(** [floor], [pos] ([None] is [null]) and [haz]. *)
Record State := {
  floor : string;
  pos : option string;
  haz : gmap string (gmap string string);
}.

(** ** Hazard store ([js/routing.js]) *)

Definition ROOM_HAZARD_TYPES : list string := ["fire"; "smoke"; "blocked"; "closed"].

(** A string is falsy exactly when it is empty. *)
Definition truthy (s : string) : bool := negb (bool_decide (s = "")).

(** [m[id] || ''] *)
Definition orEmpty (o : option string) : string := default "" o.

(** The names that every object literal inherits from [Object.prototype].
    Reading such a key on an object that has no property of its own under
    it finds the inherited member: a function (for [__proto__], the
    prototype itself), which is truthy, is no string and cannot be
    iterated. *)
Definition PROTO_NAMES : list string :=
  ["constructor"; "__defineGetter__"; "__defineSetter__"; "hasOwnProperty";
   "__lookupGetter__"; "__lookupSetter__"; "isPrototypeOf"; "propertyIsEnumerable";
   "toString"; "valueOf"; "__proto__"; "toLocaleString"].

Definition inherited (k : string) : bool := bool_decide (k ∈ PROTO_NAMES).

(** What a read [m[id] || ''] of a hazard object gives: a string, or the
    member that the object inherits under that name. *)
Inductive jsval :=
| Str (s : string)
| Member.

Coercion Str : string >-> jsval.

Global Instance jsval_eq_dec : EqDecision jsval.
Proof. solve_decision. Defined.

(** [getHaz(id)]: the mark stored for [id] on the current floor; when none
    is stored, [''], unless the name is found on [Object.prototype], whose
    member is truthy and is returned as it is.  (The floor key is taken
    to be none of the inherited names, under which [haz[floor]] reads a
    function of the prototype.) *)
Definition getHaz (st : State) (id : string) : jsval :=
  match default ∅ (haz st !! floor st) !! id with
  | Some v => Str v
  | None => if inherited id then Member else Str ""
  end.

(** [setHaz(id, val)], for a floor key and an id other than the inherited
    names: there [haz[floor]] is an object of the store or missing, and
    the assignment creates the key.  (Under the name [__proto__] the
    assignment of a string stores nothing, and [haz[floor]] of an
    inherited name is a function of the prototype.)  The order in which
    the keys were added, which [Object.entries] follows, is not kept. *)
Definition setHaz (st : State) (id val : string) : State :=
  let h := match haz st !! floor st with
           | Some _ => haz st
           | None => <[floor st := ∅]> (haz st)
           end in
  let cur := default ∅ (h !! floor st) in
  {| floor := floor st;
     pos := pos st;
     haz := if truthy val
            then <[floor st := <[id := val]> cur]> h
            else <[floor st := delete id cur]> h |}.

(** [ROOM_HAZARD_TYPES.includes(getHaz(id))]: no inherited member is in
    the list. *)
Definition isNodeBlocked (st : State) (id : string) : bool :=
  match getHaz st id with
  | Str h => bool_decide (h ∈ ROOM_HAZARD_TYPES)
  | Member => false
  end.

Definition snapshotHazards (st : State) : gmap string string :=
  default ∅ (haz st !! floor st).

Definition nodeIsHazardous (id : string) (hazSnap : gmap string string) : bool :=
  bool_decide (orEmpty (hazSnap !! id) ∈ ROOM_HAZARD_TYPES).

(** ** Graph construction *)

Abbreviation adjacency := (gmap string (list (string * Z))).

(** One iteration of [fd.edges.forEach]; [adj[a].push] throws when [adj[a]]
    is [undefined]. *)
Definition addEdge (hazSnap : gmap string string) (adj : adjacency) (e : edge)
  : outcome adjacency :=
  let '(a, b, w) := e in
  if nodeIsHazardous a hazSnap || nodeIsHazardous b hazSnap then Returned adj
  else
    match adj !! a with
    | None => Thrown
    | Some la =>
      let adj1 := <[a := la ++ [(b, w)]]> adj in
      match adj1 !! b with
      | None => Thrown
      | Some lb => Returned (<[b := lb ++ [(a, w)]]> adj1)
      end
    end.

Fixpoint addEdges (hazSnap : gmap string string) (es : list edge) (adj : adjacency)
  : outcome adjacency :=
  match es with
  | [] => Returned adj
  | e :: es' => adj' ← addEdge hazSnap adj e ; addEdges hazSnap es' adj'
  end.

Definition allIds (fd : FloorDef) : list string :=
  let '(rooms, exits) := computeCoords fd in
  (roomId <$> rooms) ++ (exitId_of <$> exits).

Definition buildAdjacency (fd : FloorDef) (hazSnap : gmap string string)
  : outcome adjacency :=
  let adj := foldl (λ adj n, <[n := []]> adj) ∅ (allIds fd) in
  addEdges hazSnap (edges fd) adj.

(** ** Dijkstra *)

Inductive num := Fin (z : Z) | Infinity.

Definition num_ltb (a b : num) : bool :=
  match a, b with
  | Fin x, Fin y => x <? y
  | Fin _, Infinity => true
  | Infinity, _ => false
  end.

(** [a < m[k]], false when [m[k]] is [undefined]. *)
Definition ltAt (a : num) (o : option num) : bool :=
  match o with
  | Some b => num_ltb a b
  | None => false
  end.

(** [a > m[k]], false when [m[k]] is [undefined]. *)
Definition gtAt (a : num) (o : option num) : bool :=
  match o with
  | Some b => num_ltb b a
  | None => false
  end.

Record search := {
  dist : gmap string num;
  prev : gmap string (option string);
  pq : list (string * Z);
}.

(** The linear scan [for (i = 1; ...) if (pq[i].d < pq[minIdx].d) minIdx = i],
    continued from position [i] with [minD = pq[minIdx].d]. *)
Fixpoint scanMin (rest : list (string * Z)) (i minIdx : nat) (minD : Z) : nat :=
  match rest with
  | [] => minIdx
  | (_, d) :: rest' =>
    if d <? minD then scanMin rest' (S i) i d else scanMin rest' (S i) minIdx minD
  end.

(** [pq.splice(minIdx, 1)[0]] together with what is left of [pq];
    [None] when [pq] is empty. *)
Definition extractMin (q : list (string * Z)) : option ((string * Z) * list (string * Z)) :=
  match q with
  | [] => None
  | (_, d0) :: rest =>
    let minIdx := scanMin rest 1 0 d0 in
    (λ e, (e, delete minIdx q)) <$> q !! minIdx
  end.

(** The body of [for (const { to, w } of adj[u])], with [du + w] a sum of
    integers; [relaxF] below rounds it as JS does. *)
Definition relax (hazSnap : gmap string string) (u : string) (du : Z)
    (s : search) (e : string * Z) : search :=
  let '(to, w) := e in
  if nodeIsHazardous to hazSnap then s
  else
    let nd := du + w in
    if ltAt (Fin nd) (dist s !! to)
    then {| dist := <[to := Fin nd]> (dist s);
            prev := <[to := Some u]> (prev s);
            pq := pq s ++ [(to, nd)] |}
    else s.

(** [adj[u] || []] as far as [for ... of] can use it: the entry of [u],
    the empty list when the key is not found at all, and [None] when it is
    found on the prototype, on which the iteration throws. *)
Definition neighbours (adj : adjacency) (u : string) : option (list (string * Z)) :=
  match adj !! u with
  | Some l => Some l
  | None => if inherited u then None else Some []
  end.

Fixpoint dijkstraLoop (fuel : nat) (hazSnap : gmap string string) (adj : adjacency)
    (s : search) : outcome (gmap string num * gmap string (option string)) :=
  match extractMin (pq s) with
  | None => Returned (dist s, prev s)
  | Some ((u, du), rest) =>
    match fuel with
    | O => OutOfFuel
    | S fuel' =>
      let s' := {| dist := dist s; prev := prev s; pq := rest |} in
      if gtAt (Fin du) (dist s !! u) then dijkstraLoop fuel' hazSnap adj s'
      else if nodeIsHazardous u hazSnap then dijkstraLoop fuel' hazSnap adj s'
      else
        match neighbours adj u with
        | Some l => dijkstraLoop fuel' hazSnap adj (foldl (relax hazSnap u du) s' l)
        | None => Thrown
        end
    end
  end.

Definition initDist (ids : list string) : gmap string num :=
  foldl (λ m i, <[i := Infinity]> m) ∅ ids.

Definition initPrev (ids : list string) : gmap string (option string) :=
  foldl (λ m i, <[i := None]> m) ∅ ids.

Definition dijkstra (fuel : nat) (fd : FloorDef) (startId : string)
    (hazSnap : gmap string string)
  : outcome (gmap string num * gmap string (option string)) :=
  let dist := initDist (allIds fd) in
  let prev := initPrev (allIds fd) in
  if nodeIsHazardous startId hazSnap then Returned (dist, prev)
  else
    adj ← buildAdjacency fd hazSnap ;
    dijkstraLoop fuel hazSnap adj
      {| dist := <[startId := Fin 0]> dist; prev := prev; pq := [(startId, 0)] |}.

(** ** Path reconstruction *)

(** [while (cur !== null) { path.unshift(cur); cur = prev[cur]; }], for as
    long as [cur] is a node with an entry of its own in [prev].  When
    [prev] has none for [cur], the next [cur] is no node ([undefined], or
    an inherited member) and the loop goes on from the key of that name;
    this is outside the model, which gives no result then
    ([mkPath_shortest] shows that the tables of [dijkstra] do not lead
    there). *)
Fixpoint mkPathFrom (fuel : nat) (prev : gmap string (option string))
    (cur : option string) (path : list string) : outcome (list string) :=
  match cur with
  | None => Returned path
  | Some c =>
    match fuel with
    | O => OutOfFuel
    | S fuel' =>
      match prev !! c with
      | None => OutOfFuel
      | Some next => mkPathFrom fuel' prev next (c :: path)
      end
    end
  end.

Definition mkPath (fuel : nat) (prev : gmap string (option string)) (endId : string)
  : outcome (list string) :=
  mkPathFrom fuel prev (Some endId) [].

(** ** Public API *)

Record Route := { exitId : string; d : Z; path : list string }.

(** [isFinite(dist[id])] with the finite value. *)
Definition finiteAt (o : option num) : option Z :=
  match o with
  | Some (Fin z) => Some z
  | _ => None
  end.

(** One iteration of [exits.forEach] in [findRoute]. *)
Definition pickExit (fuel : nat) (hazSnap : gmap string string)
    (dist : gmap string num) (prev : gmap string (option string))
    (best : option Route) (e : placed Exit.t) : outcome (option Route) :=
  if bool_decide (orEmpty (hazSnap !! exitId_of e) = "exit-blocked") then Returned best
  else
    match finiteAt (dist !! exitId_of e) with
    | Some de =>
      if match best with None => true | Some b => de <? d b end
      then p ← mkPath fuel prev (exitId_of e) ;
           Returned (Some {| exitId := exitId_of e; d := de; path := p |})
      else Returned best
    | None => Returned best
    end.

Fixpoint pickExits (fuel : nat) (hazSnap : gmap string string)
    (dist : gmap string num) (prev : gmap string (option string))
    (es : list (placed Exit.t)) (best : option Route) : outcome (option Route) :=
  match es with
  | [] => Returned best
  | e :: es' =>
    best' ← pickExit fuel hazSnap dist prev best e ;
    pickExits fuel hazSnap dist prev es' best'
  end.

(** The nodes [path[1] .. path[path.length - 2]]. *)
Definition interior (p : list string) : list string :=
  take (length p - 2) (drop 1 p).

(** Layer 3: does the loop over the intermediate nodes hit a hazard? *)
Definition contaminated (hazSnap : gmap string string) (p : list string) : bool :=
  existsb (λ n, nodeIsHazardous n hazSnap) (interior p).

(** The body of [findRoute] once [pos], the snapshot and the floor
    definition are at hand. *)
Definition routeFrom (fuel : nat) (fd : FloorDef) (start : string)
    (hazSnap : gmap string string) : outcome (option Route) :=
  let '(_, exits) := computeCoords fd in
  '(dist, prev) ← dijkstra fuel fd start hazSnap ;
  best ← pickExits fuel hazSnap dist prev exits None ;
  match best with
  | None => Returned None
  | Some b => if contaminated hazSnap (path b) then Returned None else Returned (Some b)
  end.

(** [findRoute()]: [bldg] is the constant [BLDG]; a floor key without a
    definition makes [computeCoords] throw. *)
Definition findRoute (fuel : nat) (bldg : gmap string FloorDef) (st : State)
  : outcome (option Route) :=
  match pos st with
  | None => Returned None
  | Some p =>
    if truthy p then
      let hazSnap := snapshotHazards st in
      match bldg !! floor st with
      | None => Thrown
      | Some fd => routeFrom fuel fd p hazSnap
      end
    else Returned None
  end.

(** ** The arithmetic of JS numbers

    A JS number is a double.  The definitions above add weights as
    integers; those below are the same code with the sum [d + w] rounded
    as a double rounds it.  Weights are taken to be integers that are
    doubles themselves, as the numerals of [js/data.js] are. *)

(** The double nearest to the integer [z]: [z] itself up to 2^53 in
    absolute value; beyond, [z] rounded to 53 significant bits, a tie
    going to the even neighbour; [Infinity] from 2^1024 on.  (A sum below
    -2^1024, which is [-Infinity], does not arise from positive weights
    and is left finite.) *)
Definition fl (z : Z) : num :=
  let a := Z.abs z in
  if a <? 2 ^ 53 then Fin z
  else
    let e := Z.log2 a - 52 in
    let q := Z.shiftr a e in
    let r := a - Z.shiftl q e in
    let half := 2 ^ (e - 1) in
    let q' := if r <? half then q
              else if half <? r then q + 1
              else if Z.even q then q else q + 1 in
    let m := Z.shiftl q' e in
    if (0 <? z) && (2 ^ 1024 <=? m) then Infinity else Fin (Z.sgn z * m).

(** [relax] with [nd = d + w] as a double; [Infinity < dist[to]] is
    false. *)
Definition relaxF (hazSnap : gmap string string) (u : string) (du : Z)
    (s : search) (e : string * Z) : search :=
  let '(to, w) := e in
  if nodeIsHazardous to hazSnap then s
  else
    match fl (du + w) with
    | Fin nd =>
      if ltAt (Fin nd) (dist s !! to)
      then {| dist := <[to := Fin nd]> (dist s);
              prev := <[to := Some u]> (prev s);
              pq := pq s ++ [(to, nd)] |}
      else s
    | Infinity => s
    end.

Fixpoint dijkstraLoopF (fuel : nat) (hazSnap : gmap string string) (adj : adjacency)
    (s : search) : outcome (gmap string num * gmap string (option string)) :=
  match extractMin (pq s) with
  | None => Returned (dist s, prev s)
  | Some ((u, du), rest) =>
    match fuel with
    | O => OutOfFuel
    | S fuel' =>
      let s' := {| dist := dist s; prev := prev s; pq := rest |} in
      if gtAt (Fin du) (dist s !! u) then dijkstraLoopF fuel' hazSnap adj s'
      else if nodeIsHazardous u hazSnap then dijkstraLoopF fuel' hazSnap adj s'
      else
        match neighbours adj u with
        | Some l => dijkstraLoopF fuel' hazSnap adj (foldl (relaxF hazSnap u du) s' l)
        | None => Thrown
        end
    end
  end.

Definition dijkstraF (fuel : nat) (fd : FloorDef) (startId : string)
    (hazSnap : gmap string string)
  : outcome (gmap string num * gmap string (option string)) :=
  let dist := initDist (allIds fd) in
  let prev := initPrev (allIds fd) in
  if nodeIsHazardous startId hazSnap then Returned (dist, prev)
  else
    adj ← buildAdjacency fd hazSnap ;
    dijkstraLoopF fuel hazSnap adj
      {| dist := <[startId := Fin 0]> dist; prev := prev; pq := [(startId, 0)] |}.

Definition routeFromF (fuel : nat) (fd : FloorDef) (start : string)
    (hazSnap : gmap string string) : outcome (option Route) :=
  let '(_, exits) := computeCoords fd in
  '(dist, prev) ← dijkstraF fuel fd start hazSnap ;
  best ← pickExits fuel hazSnap dist prev exits None ;
  match best with
  | None => Returned None
  | Some b => if contaminated hazSnap (path b) then Returned None else Returned (Some b)
  end.

Definition findRouteF (fuel : nat) (bldg : gmap string FloorDef) (st : State)
  : outcome (option Route) :=
  match pos st with
  | None => Returned None
  | Some p =>
    if truthy p then
      let hazSnap := snapshotHazards st in
      match bldg !! floor st with
      | None => Thrown
      | Some fd => routeFromF fuel fd p hazSnap
      end
    else Returned None
  end.

(** ** Rendering helpers ([js/render.js]) *)

(** A pixel coordinate: an integer, or [None] when an index outside the
    grid left no number: [undefined] for the centre of a room, [NaN]
    elsewhere.  Every comparison with either is false. *)
Abbreviation coord := (option Z).

(** [getNodeCenter(id, rooms, exits)]; [None] is [null]. *)
Definition getNodeCenter (id : string) (rooms : list (placed Room.t))
    (exits : list (placed Exit.t)) : option (coord * coord) :=
  match find (λ r, bool_decide (roomId r = id)) rooms with
  | Some r => Some (cx r, cy r)
  | None =>
    match find (λ e, bool_decide (exitId_of e = id)) exits with
    | Some e => Some (cx e, cy e)
    | None => None
    end
  end.

(** [Math.abs(a - b) < 2]; false when either is no number. *)
Definition near (a b : coord) : bool :=
  match a, b with
  | Some x, Some y => Z.abs (x - y) <? 2
  | _, _ => false
  end.


(** A point [{x, y}]. *)
Abbreviation point := (coord * coord)%type.

(** [Math.abs(a - b) > 1]; false when either is no number. *)
Definition apart (a b : coord) : bool :=
  match a, b with
  | Some x, Some y => 1 <? Z.abs (x - y)
  | _, _ => false
  end.



(** The loop that drops a point lying within one pixel of the last point
    kept: what it pushes to [deduped] after [last]. *)
Fixpoint dedupe (last : point) (pts : list point) : list point :=
  match pts with
  | [] => []
  | p :: rest =>
    if apart p.1 last.1 || apart p.2 last.2 then p :: dedupe p rest
    else dedupe last rest
  end.


(** The class that [drawMap] gives to the rectangle of a room. *)
Definition roomClass (st : State) (route : option Route) (room : placed Room.t) : string :=
  let h := getHaz st (roomId room) in
  let isSel := bool_decide (pos st = Some (roomId room)) in
  let pathSet := match route with Some r => path r | None => [] end in
  let onPath := bool_decide (roomId room ∈ pathSet) && negb isSel in
  if Room.isStair (spec_of room) then "room r-stair"
  else if isSel then "room r-sel"
  else if bool_decide (h = "fire") then "room r-fire"
  else if bool_decide (h = "smoke") then "room r-smoke"
  else if bool_decide (h = "blocked") then "room r-blocked"
  else if bool_decide (h = "closed") then "room r-closed"
  else if onPath then "room r-path"
  else "room r-clear".

(** What [updateStatus] writes into the header: the two numbers of the
    exit counter, the class of the dot, the status text and whether the
    alert strip is on. *)
Record StatusBar := {
  openCount : nat;
  exitCount : nat;
  sdot : string;
  stext : string;
  stripOn : bool;
}.

(** [Object.values(floorHaz).filter(Boolean).length] *)
Definition activeCount (floorHaz : gmap string string) : nat :=
  length (filter (λ v, truthy v = true) (map_to_list floorHaz).*2).

(** [updateStatus()]; [computeCoords] throws on a floor without a
    definition, before anything is written. *)
Definition updateStatus (bldg : gmap string FloorDef) (st : State) : outcome StatusBar :=
  let floorHaz := default ∅ (haz st !! floor st) in
  let active := activeCount floorHaz in
  match bldg !! floor st with
  | None => Thrown
  | Some fd =>
    let '(_, exits) := computeCoords fd in
    let opened :=
      length (filter (λ e, getHaz st (exitId_of e) ≠ "exit-blocked") exits) in
    Returned
      (if bool_decide (active = 0%nat)
       then {| openCount := opened; exitCount := length exits;
               sdot := "sdot ok"; stext := "NORMAL"; stripOn := false |}
       else if bool_decide (active < 3)%nat
       then {| openCount := opened; exitCount := length exits;
               sdot := "sdot warn"; stext := "CAUTION"; stripOn := true |}
       else {| openCount := opened; exitCount := length exits;
               sdot := "sdot crit"; stext := "EMERGENCY"; stripOn := true |})
  end.

(** How [render()] begins: the route is computed, then [drawMap] reads
    the floor definition, which throws when there is none.  What follows
    (the drawing and the panels, which write none of [floor], [pos],
    [haz]) is not modelled, and neither is what it may throw: [Returned]
    says that the route was computed on a floor with a definition, not
    that the page was drawn. *)
Definition render (fuel : nat) (bldg : gmap string FloorDef) (st : State)
  : outcome (option Route) :=
  route ← findRouteF fuel bldg st;
  match bldg !! floor st with
  | None => Thrown
  | Some _ => Returned route
  end.

(** ** State changes ([js/main.js]) *)

(** The state at load time. *)
Definition initialState : State := {| floor := "GF"; pos := None; haz := ∅ |}.

(** A handler leaves a state behind, also when it throws half-way;
    [completion] is the outcome of the part of [render] that is
    modelled. *)
Record Handled := {
  stateAfter : State;
  completion : outcome (option Route);
}.

(** [setFloor(f)]: [floor] is assigned first; [computeCoords(BLDG[f])]
    throws when [f] has no definition, otherwise a position that is not a
    room of the new floor is dropped and [render] is called. *)
Definition setFloor (fuel : nat) (bldg : gmap string FloorDef) (f : string) (st : State)
  : Handled :=
  let st1 := {| floor := f; pos := pos st; haz := haz st |} in
  match bldg !! f with
  | None => {| stateAfter := st1; completion := Thrown |}
  | Some fd =>
    let '(rooms, _) := computeCoords fd in
    let st2 :=
      match pos st with
      | Some p =>
        if truthy p && negb (bool_decide (is_Some (find (λ r, bool_decide (roomId r = p)) rooms)))
        then {| floor := f; pos := None; haz := haz st |}
        else st1
      | None => st1
      end in
    {| stateAfter := st2; completion := render fuel bldg st2 |}
  end.

(** [setPos(id)]: [pos = (pos === id) ? null : (id || null)], then
    [render] is called. *)
Definition setPos (fuel : nat) (bldg : gmap string FloorDef) (id : string) (st : State)
  : Handled :=
  let p := if bool_decide (pos st = Some id) then None
           else if truthy id then Some id else None in
  let st' := {| floor := floor st; pos := p; haz := haz st |} in
  {| stateAfter := st'; completion := render fuel bldg st' |}.

(** The [change] handler of the position dropdown:
    [pos = this.value || null], then [render] is called. *)
Definition posSelectChange (fuel : nat) (bldg : gmap string FloorDef) (value : string)
    (st : State) : Handled :=
  let st' := {| floor := floor st;
                pos := if truthy value then Some value else None;
                haz := haz st |} in
  {| stateAfter := st'; completion := render fuel bldg st' |}.

(** The [change] handler of a hazard dropdown of the room list or of the
    exit list ([js/render.js]): [setHaz(id, sel.value)], then [render] is
    called. *)
Definition hazSelectChange (fuel : nat) (bldg : gmap string FloorDef) (id value : string)
    (st : State) : Handled :=
  let st' := setHaz st id value in
  {| stateAfter := st'; completion := render fuel bldg st' |}.

(** What the page listens to: a click on a floor tab, a click on a room of
    the map, a choice in the position dropdown, a choice in a hazard
    dropdown. *)
Inductive event :=
| TabClick (f : string)
| RoomClick (id : string)
| PosSelect (value : string)
| HazSelect (id value : string).

Definition handle (fuel : nat) (bldg : gmap string FloorDef) (e : event) (st : State)
  : Handled :=
  match e with
  | TabClick f => setFloor fuel bldg f st
  | RoomClick id => setPos fuel bldg id st
  | PosSelect value => posSelectChange fuel bldg value st
  | HazSelect id value => hazSelectChange fuel bldg id value st
  end.

(** The state that a sequence of events leaves behind; a handler that
    throws keeps what it has written so far. *)
Definition run (fuel : nat) (bldg : gmap string FloorDef) (evs : list event) (st : State)
  : State :=
  foldl (λ s e, stateAfter (handle fuel bldg e s)) st evs.

(** * Specification vocabulary *)

(** The hazard kinds that make a node impassable. *)
Definition impassableKind (k : jsval) : Prop :=
  match k with
  | Str h => h ∈ ROOM_HAZARD_TYPES
  | Member => False
  end.

Definition passable (hazSnap : gmap string string) (u : string) : Prop :=
  nodeIsHazardous u hazSnap = false.

(** [u] and [v] are the two ends of an edge of weight [w] in the list [es]. *)
Definition joinedIn (es : list edge) (u v : string) (w : Z) : Prop :=
  (u, v, w) ∈ es ∨ (v, u, w) ∈ es.

Definition joined (fd : FloorDef) : string → string → Z → Prop :=
  joinedIn (edges fd).

Definition safeIn (hazSnap : gmap string string) (es : list edge)
    (u v : string) (w : Z) : Prop :=
  joinedIn es u v w ∧ passable hazSnap u ∧ passable hazSnap v.

Definition safeEdge (fd : FloorDef) (hazSnap : gmap string string)
  : string → string → Z → Prop :=
  safeIn hazSnap (edges fd).

(** [walk fd p c]: the node sequence [p] follows declared edges whose
    weights add up to [c]. *)
Inductive walk (fd : FloorDef) : list string → Z → Prop :=
| walk_one u : walk fd [u] 0
| walk_cons u v p w c :
    joined fd u v w → walk fd (v :: p) c → walk fd (u :: v :: p) (w + c).


Definition openExit (hazSnap : gmap string string) (e : Exit.t) : Prop :=
  orEmpty (hazSnap !! Exit.id e) ≠ "exit-blocked".

Definition positiveWeights (fd : FloorDef) : Prop :=
  ∀ a b w, (a, b, w) ∈ edges fd → 0 < w.

Definition declared (fd : FloorDef) (u : string) : Prop := u ∈ allIds fd.

(** The Floor Graph invariant: both ends of every edge are declared nodes. *)
Definition endpointsDeclared (fd : FloorDef) : Prop :=
  ∀ a b w, (a, b, w) ∈ edges fd → declared fd a ∧ declared fd b.


(** A key that no object inherits: a read of it finds a property of the
    object itself or nothing. *)
Definition ordinaryKey (k : string) : Prop := inherited k = false.

(** A start that the search can handle: a declared node, or a key that is
    found nowhere. *)
Definition knownStart (fd : FloorDef) (s : string) : Prop :=
  declared fd s ∨ ordinaryKey s.

(** The selected position, if any, is a start that the search can handle. *)
Definition posKnown (bldg : gmap string FloorDef) (st : State) : Prop :=
  ∀ s fd, pos st = Some s → bldg !! floor st = Some fd → knownStart fd s.

(** The selected position, if any, is a room of the current floor. *)
Definition onFloor (bldg : gmap string FloorDef) (st : State) : Prop :=
  ∀ p, pos st = Some p → ∃ fd, bldg !! floor st = Some fd ∧ p ∈ Room.id <$> rooms fd.

(** A room that can be clicked on the map or chosen in the position
    dropdown: a room of the current floor that is no staircase. *)
Definition selectable (bldg : gmap string FloorDef) (st : State) (id : string) : Prop :=
  ∃ fd r, bldg !! floor st = Some fd ∧ r ∈ rooms fd ∧ Room.isStair r = false ∧
          id = Room.id r.

(** The events that the page offers in the state [st]: the rectangle of
    every room but the staircases is clickable; the position dropdown
    lists the empty choice and the same rooms; each of these rooms has a
    dropdown of the four room hazards and each exit of the floor one with
    the single mark of exits.  The floor tabs are part of the HTML page,
    they are taken to name floors of the building. *)
Definition offered (bldg : gmap string FloorDef) (st : State) (e : event) : Prop :=
  match e with
  | TabClick f => is_Some (bldg !! f)
  | RoomClick id => selectable bldg st id
  | PosSelect value => value = "" ∨ selectable bldg st value
  | HazSelect id value =>
    (selectable bldg st id ∧ value ∈ "" :: ROOM_HAZARD_TYPES) ∨
    (∃ fd x, bldg !! floor st = Some fd ∧ x ∈ exits fd ∧ id = Exit.id x ∧
             value ∈ [""; "exit-blocked"])
  end.

(** Every event of the sequence is offered in the state in which it
    arrives. *)
Fixpoint offeredAll (fuel : nat) (bldg : gmap string FloorDef) (st : State)
    (evs : list event) : Prop :=
  match evs with
  | [] => True
  | e :: evs' =>
    offered bldg st e ∧ offeredAll fuel bldg (stateAfter (handle fuel bldg e st)) evs'
  end.

(** The weights are positive and so small that no sum the search forms
    goes beyond 2^53, up to where the sums of doubles are exact: the loop
    takes at most [searchFuel fd] turns, each adds one weight. *)
Definition safeSums (fd : FloorDef) : Prop :=
  ∀ a b w, (a, b, w) ∈ edges fd → 0 < w ∧ w * Z.of_nat (S (2 * length (edges fd))) ≤ 2 ^ 53.

(** The hazard store holds no empty value. *)
Definition cleanStore (st : State) : Prop :=
  ∀ f m id v, haz st !! f = Some m → m !! id = Some v → v ≠ "".

(** Every edge of the floor has weight 1, as in the building data. *)
Definition unitWeights (fd : FloorDef) : Prop :=
  ∀ a b w, (a, b, w) ∈ edges fd → w = 1.

(** Every room and every exit of the floor sits on the 3 x 3 grid, so that
    no pixel coordinate is [NaN]. *)
Definition inGrid (fd : FloorDef) : Prop :=
  (∀ r, r ∈ rooms fd → (Room.col r < 3)%nat ∧ (Room.row r < 3)%nat) ∧
  (∀ e, e ∈ exits fd → (Exit.col e < 3)%nat).

(** Two points share a coordinate up to less than two pixels: the segment
    between them runs along a row or a column. *)
Definition aligned (p q : point) : Prop := near p.1 q.1 = true ∨ near p.2 q.2 = true.

(** Every segment of the line through [pts] runs along a row or a column. *)
Definition legs (pts : list point) : Prop :=
  ∀ i p q, pts !! i = Some p → pts !! S i = Some q → aligned p q.


(** * Invariants of the search *)

(** [reach fd hazSnap startId v c]: some hazard-free walk from the start to
    [v] weighs [c]. *)
Inductive reach (fd : FloorDef) (hazSnap : gmap string string) (startId : string)
  : string → Z → Prop :=
| reach_start : reach fd hazSnap startId startId 0
| reach_step u v c w :
    reach fd hazSnap startId u c → safeEdge fd hazSnap u v w →
    reach fd hazSnap startId v (c + w).

Definition distLe (m : gmap string num) (v : string) (c : Z) : Prop :=
  ∃ c', m !! v = Some (Fin c') ∧ c' ≤ c.

(** Every hazard-free edge at [u] is either still in [rest] or relaxed. *)
Definition settled (fd : FloorDef) (hazSnap : gmap string string)
    (m : gmap string num) (rest : list (string * Z)) (u : string) (c : Z) : Prop :=
  ∀ v w, safeEdge fd hazSnap u v w → (v, w) ∈ rest ∨ distLe m v (c + w).

(** The loop invariant, while the edges [rest] of the extracted entry
    [(u, du)] are still to be relaxed. *)
Record Inv (fd : FloorDef) (hazSnap : gmap string string) (startId : string)
    (adj : adjacency) (u : string) (du : Z) (rest : list (string * Z))
    (s : search) : Prop := {
  inv_sound : ∀ v c, dist s !! v = Some (Fin c) → reach fd hazSnap startId v c;
  inv_queue : ∀ v c, (v, c) ∈ pq s → passable hazSnap v ∧ distLe (dist s) v c;
  inv_cover : ∀ x c, dist s !! x = Some (Fin c) →
    (x, c) ∈ pq s ∨ settled fd hazSnap (dist s) [] x c ∨
    (x = u ∧ c = du ∧ settled fd hazSnap (dist s) rest x c);
  inv_start : distLe (dist s) startId 0;
  inv_dom : ∀ v, is_Some (adj !! v) → is_Some (dist s !! v);
  inv_prev : ∀ v p, prev s !! v = Some (Some p) →
    ∃ w cp cv, safeEdge fd hazSnap p v w ∧ dist s !! p = Some (Fin cp) ∧
               dist s !! v = Some (Fin cv) ∧ cp + w ≤ cv;
  inv_root : ∀ v c, dist s !! v = Some (Fin c) →
    v = startId ∨ ∃ p, prev s !! v = Some (Some p);
  inv_pdom : ∀ v, is_Some (adj !! v) → is_Some (prev s !! v);
}.

(** The invariant between two turns of the loop. *)
Definition Idle (fd : FloorDef) (hazSnap : gmap string string) (startId : string)
    (adj : adjacency) (s : search) : Prop :=
  Inv fd hazSnap startId adj startId 0 [] s.

(** What holds of the tables the loop returns. *)
Definition Final (fd : FloorDef) (hazSnap : gmap string string) (startId : string)
    (adj : adjacency) (D : gmap string num) (P : gmap string (option string)) : Prop :=
  Idle fd hazSnap startId adj {| dist := D; prev := P; pq := [] |}.


(** The nodes met when following [prev] from [cur] down to [null],
    listed in the order [mkPath] returns them. *)
Inductive chain (P : gmap string (option string)) : option string → list string → Prop :=
| chain_end : chain P None []
| chain_link c next l :
    P !! c = Some next → chain P next l → chain P (Some c) (l ++ [c]).

(** [b] was built by [forEach] from an open exit of [es] of finite
    distance. *)
Definition chosen (fuel : nat) (hazSnap : gmap string string)
    (D : gmap string num) (P : gmap string (option string))
    (es : list Exit.t) (b : Route) : Prop :=
  ∃ e, e ∈ es ∧ openExit hazSnap e ∧ exitId b = Exit.id e ∧
       D !! Exit.id e = Some (Fin (d b)) ∧
       mkPath fuel P (Exit.id e) = Returned (path b).

(** The number of entries of an adjacency table. *)
Definition addLength (_ : string) (l : list (string * Z)) (acc : nat) : nat :=
  (length l + acc)%nat.

Definition load (t : adjacency) : nat := map_fold addLength 0%nat t.

(** Fuel that suffices for the search loop on the floor [fd]. *)
Definition searchFuel (fd : FloorDef) : nat := S (2 * length (edges fd)).

(** Fuel that suffices for a whole call of [findRoute] on the floor [fd]:
    the search loop and every path reconstruction. *)
Definition routeFuel (fd : FloorDef) : nat :=
  Nat.max (searchFuel fd) (length (allIds fd)).

(** The extra invariant behind the fuel bound: [done] are the nodes
    whose edges have been relaxed, [todo] the table without them, [m]
    the last key extracted. *)
Record TInv (adj : adjacency) (done : gset string) (todo : adjacency) (m : Z)
    (s : search) : Prop := {
  t_low : ∀ v c, (v, c) ∈ pq s → m ≤ c;
  t_done : ∀ v, v ∈ done → distLe (dist s) v m;
  t_nodup : NoDup (pq s);
  t_stale : ∀ v c, v ∈ done → (v, c) ∈ pq s → dist s !! v ≠ Some (Fin c);
  t_todo : ∀ v l, v ∉ done → adj !! v = Some l → todo !! v = Some l;
}.



Definition valueOr {A : Type} (dflt : A) (o : outcome A) : A :=
  match o with
  | Returned a => a
  | _ => dflt
  end.

(** The two tables of a finished search (empty when it did not finish). *)
Definition tablesOf (o : outcome (gmap string num * gmap string (option string)))
  : gmap string num * gmap string (option string) :=
  valueOr (∅, ∅) o.

(** A floor whose second edge names a node that is not declared. *)
Definition looseEnd : FloorDef :=
  {| rooms := [R "hall" 0 0]; exits := [Exit.mk "door" bottom 0];
     edges := [("hall", "door", 1); ("hall", "annex", 1)] |}.

(** Floors with long corridors: weights around 2^53. *)
Definition farFloor : FloorDef :=
  {| rooms := [R "s" 0 0; R "m" 1 0];
     exits := [Exit.mk "e2" top 0; Exit.mk "e1" bottom 1];
     edges := [("s", "m", 2 ^ 53); ("m", "e1", 3); ("s", "e2", 2 ^ 53 + 4)] |}.

Definition tieFloor : FloorDef :=
  {| rooms := [R "s" 0 0; R "m" 1 0; R "a" 0 1; R "b" 1 1];
     exits := [Exit.mk "e1" bottom 1; Exit.mk "e2" bottom 2];
     edges := [("s", "m", 2 ^ 53); ("m", "e1", 3);
               ("s", "a", 2 ^ 53); ("a", "b", 1); ("b", "e2", 2)] |}.

Definition farBldg : gmap string FloorDef := {["far" := farFloor; "tie" := tieFloor]}.

Definition onFar (f : string) : State := {| floor := f; pos := Some "s"; haz := ∅ |}.

(** * Example states on the ground floor *)

Definition onGF (p : option string) (h : gmap string string) : State :=
  {| floor := "GF"; pos := p; haz := {["GF" := h]} |}.



(** * Outcomes *)



Lemma bind_Returned {A B : Type} (o : outcome A) (k : A → outcome B) (b : B) :
  o ≫= k = Returned b ↔ ∃ a, o = Returned a ∧ k a = Returned b.
Proof.
  destruct o as [a| |]; cbn; split; try done; try (by intros (? & ? & ?)).
  - eauto.
  - by intros (? & [= <-] & ?).
Qed.

Lemma neighbours_Some (adj : adjacency) u l :
  neighbours adj u = Some l → l = default [] (adj !! u).
Proof.
  unfold neighbours. destruct (adj !! u) as [l'|]; simpl; [by intros [= ->]|].
  destruct (inherited u); [done|by intros [= <-]].
Qed.

Lemma neighbours_known (adj : adjacency) u :
  is_Some (adj !! u) ∨ inherited u = false → is_Some (neighbours adj u).
Proof.
  unfold neighbours. intros [[l ->]|Hu]; [eauto|]. destruct (adj !! u); [eauto|].
  rewrite Hu. eauto.
Qed.

(** * Graph construction *)

Section Adjacency.
Context (hazSnap : gmap string string).

Lemma joinedIn_cons e es u v w :
  joinedIn (e :: es) u v w ↔ joinedIn [e] u v w ∨ joinedIn es u v w.
Proof. unfold joinedIn. set_solver. Qed.

Lemma safeIn_cons e es u v w :
  safeIn hazSnap (e :: es) u v w ↔ safeIn hazSnap [e] u v w ∨ safeIn hazSnap es u v w.
Proof. unfold safeIn. rewrite joinedIn_cons. tauto. Qed.

Lemma safeIn_nil u v w : ¬ safeIn hazSnap [] u v w.
Proof. unfold safeIn, joinedIn. set_solver. Qed.

Lemma safeIn_sym es u v w : safeIn hazSnap es u v w → safeIn hazSnap es v u w.
Proof. unfold safeIn, joinedIn. tauto. Qed.

Lemma joinedIn_single a b w u v w' :
  joinedIn [(a, b, w)] u v w' ↔ w' = w ∧ ((u = a ∧ v = b) ∨ (u = b ∧ v = a)).
Proof. unfold joinedIn. rewrite !list_elem_of_singleton. naive_solver. Qed.

(** What one [forEach] step does to the table. *)
Lemma addEdge_spec adj a b w adj' :
  addEdge hazSnap adj (a, b, w) = Returned adj' →
  (∀ u, is_Some (adj' !! u) ↔ is_Some (adj !! u)) ∧
  (∀ u v w', safeIn hazSnap [(a, b, w)] u v w' → is_Some (adj !! u)) ∧
  (∀ u l', adj' !! u = Some l' →
     ∃ l, adj !! u = Some l ∧
          ∀ v w', (v, w') ∈ l' ↔ (v, w') ∈ l ∨ safeIn hazSnap [(a, b, w)] u v w').
Proof.
  unfold addEdge.
  destruct (nodeIsHazardous a hazSnap) eqn:Ha; simpl.
  { intros [= <-]. split; [done|]. split.
    - intros u v w' (Hj & Hu & Hv). rewrite joinedIn_single in Hj.
      unfold passable in *. destruct Hj as (_ & [[-> ->]|[-> ->]]); congruence.
    - intros u l' Hl. exists l'. split; [done|]. intros v w'. split; [auto|].
      intros [?|(Hj & Hu & Hv)]; [done|]. rewrite joinedIn_single in Hj.
      unfold passable in *. destruct Hj as (_ & [[-> ->]|[-> ->]]); congruence. }
  destruct (nodeIsHazardous b hazSnap) eqn:Hb; simpl.
  { intros [= <-]. split; [done|]. split.
    - intros u v w' (Hj & Hu & Hv). rewrite joinedIn_single in Hj.
      unfold passable in *. destruct Hj as (_ & [[-> ->]|[-> ->]]); congruence.
    - intros u l' Hl. exists l'. split; [done|]. intros v w'. split; [auto|].
      intros [?|(Hj & Hu & Hv)]; [done|]. rewrite joinedIn_single in Hj.
      unfold passable in *. destruct Hj as (_ & [[-> ->]|[-> ->]]); congruence. }
  destruct (adj !! a) as [la|] eqn:Hla; [|done].
  destruct (decide (a = b)) as [->|Hab].
  - rewrite lookup_insert_eq. intros [= <-]. split; [|split].
    + intros u. destruct (decide (u = b)) as [->|Hu].
      * rewrite lookup_insert_eq, Hla. split; eauto.
      * by rewrite !lookup_insert_ne.
    + intros u v w' (Hj & _). rewrite joinedIn_single in Hj.
      destruct Hj as (_ & [[-> _]|[-> _]]); eauto.
    + intros u l'. destruct (decide (u = b)) as [->|Hu].
      * rewrite lookup_insert_eq. intros [= <-]. exists la. split; [done|].
        intros v w'. unfold safeIn. rewrite joinedIn_single.
        rewrite !elem_of_app, !list_elem_of_singleton. unfold passable. naive_solver.
      * rewrite !lookup_insert_ne by done. intros Hl. exists l'. split; [done|].
        intros v w'. unfold safeIn. rewrite joinedIn_single. naive_solver.
  - rewrite lookup_insert_ne by done.
    destruct (adj !! b) as [lb|] eqn:Hlb; [|done].
    intros [= <-]. split; [|split].
    + intros u. destruct (decide (u = b)) as [->|Hu].
      * rewrite lookup_insert_eq, Hlb. split; eauto.
      * rewrite lookup_insert_ne by done. destruct (decide (u = a)) as [->|Hu'].
        -- rewrite lookup_insert_eq, Hla. split; eauto.
        -- by rewrite lookup_insert_ne.
    + intros u v w' (Hj & _). rewrite joinedIn_single in Hj.
      destruct Hj as (_ & [[-> _]|[-> _]]); eauto.
    + intros u l'. destruct (decide (u = b)) as [->|Hu].
      * rewrite lookup_insert_eq. intros [= <-]. exists lb. split; [done|].
        intros v w'. unfold safeIn. rewrite joinedIn_single.
        rewrite elem_of_app, list_elem_of_singleton. unfold passable. naive_solver.
      * rewrite lookup_insert_ne by done. destruct (decide (u = a)) as [->|Hu'].
        -- rewrite lookup_insert_eq. intros [= <-]. exists la. split; [done|].
           intros v w'. unfold safeIn. rewrite joinedIn_single.
           rewrite elem_of_app, list_elem_of_singleton. unfold passable. naive_solver.
        -- rewrite lookup_insert_ne by done. intros Hl. exists l'. split; [done|].
           intros v w'. unfold safeIn. rewrite joinedIn_single. naive_solver.
Qed.

Lemma addEdges_spec es adj adj' :
  addEdges hazSnap es adj = Returned adj' →
  (∀ u, is_Some (adj' !! u) ↔ is_Some (adj !! u)) ∧
  (∀ u v w, safeIn hazSnap es u v w → is_Some (adj !! u)) ∧
  (∀ u l', adj' !! u = Some l' →
     ∃ l, adj !! u = Some l ∧
          ∀ v w, (v, w) ∈ l' ↔ (v, w) ∈ l ∨ safeIn hazSnap es u v w).
Proof.
  revert adj. induction es as [|[[a b] w] es IH]; intros adj; simpl.
  - intros [= <-]. split; [done|]. split.
    + intros u v w H. by apply safeIn_nil in H.
    + intros u l' Hl. exists l'. split; [done|]. intros v w.
      split; [auto|]. intros [?|H]; [done|]. by apply safeIn_nil in H.
  - intros (adj1 & H1 & H2)%bind_Returned. apply addEdge_spec in H1 as (D1 & S1 & L1).
    apply IH in H2 as (D2 & S2 & L2). split; [|split].
    + intros u. by rewrite D2, D1.
    + intros u v w' [H|H]%safeIn_cons; [by eapply S1|].
      apply D1. by eapply S2.
    + intros u l' Hl. apply L2 in Hl as (l1 & Hl1 & E2).
      apply L1 in Hl1 as (l & Hl & E1). exists l. split; [done|].
      intros v w'. rewrite E2, E1, (safeIn_cons (a, b, w) es). tauto.
Qed.

Lemma init_table_lookup {A : Type} (x : A) ids (m : gmap string A) u :
  foldl (λ m i, <[i := x]> m) m ids !! u
  = if decide (u ∈ ids) then Some x else m !! u.
Proof.
  revert m. induction ids as [|i ids IH]; intros m.
  - cbn [foldl]. destruct (decide (u ∈ [])) as [H|H]; [|done].
    by apply elem_of_nil in H.
  - cbn [foldl]. rewrite IH.
    destruct (decide (u ∈ ids)) as [H|H], (decide (u ∈ i :: ids)) as [H'|H'];
      try done.
    + set_solver.
    + apply elem_of_cons in H' as [->|]; [|done]. by rewrite lookup_insert_eq.
    + rewrite lookup_insert_ne; [done|]. set_solver.
Qed.

(** The table has an entry exactly for the declared nodes, and the entry
    of [u] lists exactly the hazard-free edges at [u]. *)
Lemma buildAdjacency_spec fd adj :
  buildAdjacency fd hazSnap = Returned adj →
  (∀ u, is_Some (adj !! u) ↔ declared fd u) ∧
  (∀ u v w, safeEdge fd hazSnap u v w → declared fd u) ∧
  (∀ u l, adj !! u = Some l → ∀ v w, (v, w) ∈ l ↔ safeEdge fd hazSnap u v w).
Proof.
  unfold buildAdjacency. intros (D & S & L)%addEdges_spec.
  assert (∀ u, is_Some (foldl (λ adj n, <[n := []]> adj)
                (∅ : adjacency) (allIds fd) !! u) ↔ declared fd u) as D0.
  { intros u. rewrite init_table_lookup, lookup_empty. unfold declared.
    destruct (decide (u ∈ allIds fd)) as [H|H]; split; eauto.
    - intros [? [=]].
    - by intros ?%H. }
  split; [|split].
  - intros u. by rewrite D, D0.
  - intros u v w H. apply D0. by eapply S.
  - intros u l Hl v w. apply L in Hl as (l0 & Hl0 & E).
    rewrite init_table_lookup, lookup_empty in Hl0.
    destruct (decide (u ∈ allIds fd)); [|done]. injection Hl0 as <-.
    rewrite E. unfold safeEdge. set_solver.
Qed.
End Adjacency.

(** * Extract-min *)

Lemma scanMin_spec rest : ∀ pre i minIdx x,
  length pre = i → pre !! minIdx = Some x →
  ∃ y, (pre ++ rest) !! scanMin rest i minIdx x.2 = Some y ∧
       y.2 ≤ x.2 ∧ ∀ z, z ∈ rest → y.2 ≤ z.2.
Proof.
  induction rest as [|[n c] rest IH]; intros pre i minIdx x Hlen Hx; simpl.
  - exists x. rewrite app_nil_r. split; [done|]. split; [lia|]. by intros z ?%elem_of_nil.
  - destruct (Z.ltb_spec c x.2) as [Hlt|Hge].
    + destruct (IH (pre ++ [(n, c)]) (S i) i (n, c)) as (y & Hy & Hle & Hall).
      * rewrite length_app. simpl. lia.
      * rewrite lookup_app_r by lia. by replace (i - length pre)%nat with 0%nat by lia.
      * exists y. rewrite <- app_assoc in Hy. simpl in *. split; [done|].
        split; [lia|]. intros z [->|Hz]%elem_of_cons; [done|]. by apply Hall.
    + destruct (IH (pre ++ [(n, c)]) (S i) minIdx x) as (y & Hy & Hle & Hall).
      * rewrite length_app. simpl. lia.
      * rewrite lookup_app_l; [done|]. by eapply lookup_lt_Some.
      * exists y. rewrite <- app_assoc in Hy. simpl in *. split; [done|].
        split; [lia|]. intros z [->|Hz]%elem_of_cons; [simpl; lia|]. by apply Hall.
Qed.

Lemma extractMin_None q : extractMin q = None → q = [].
Proof.
  destruct q as [|[n c] rest]; [done|]. unfold extractMin.
  destruct (scanMin_spec rest [(n, c)] 1 0 (n, c)) as (y & Hy & _); [done..|].
  simpl in Hy. simpl. by rewrite Hy.
Qed.

Lemma extractMin_Some q e rest :
  extractMin q = Some (e, rest) →
  q ≡ₚ e :: rest ∧ ∀ z, z ∈ q → e.2 ≤ z.2.
Proof.
  destruct q as [|[n c] q']; [done|]. unfold extractMin.
  destruct (scanMin_spec q' [(n, c)] 1 0 (n, c)) as (y & Hy & Hle & Hall); [done..|].
  simpl in Hy, Hle. simpl. rewrite Hy. simpl. intros [= <- <-]. split.
  - by apply delete_Permutation.
  - intros z [->|Hz]%elem_of_cons; [done|]. by apply Hall.
Qed.

(** * The search loop *)

Section Search.
Context (fd : FloorDef) (hazSnap : gmap string string) (startId : string).
Context (adj : adjacency).
Hypothesis adj_dom : ∀ u v w, safeEdge fd hazSnap u v w → is_Some (adj !! u).
Hypothesis adj_edges :
  ∀ u l, adj !! u = Some l → ∀ v w, (v, w) ∈ l ↔ safeEdge fd hazSnap u v w.

Local Abbreviation reach := (reach fd hazSnap startId).
Local Abbreviation settled := (settled fd hazSnap).
Local Abbreviation Inv := (Inv fd hazSnap startId adj).
Local Abbreviation Idle := (Idle fd hazSnap startId adj).
Local Abbreviation Final := (Final fd hazSnap startId adj).





Lemma Inv_idle u du u' du' s : Inv u du [] s → Inv u' du' [] s.
Proof.
  intros [? ? Hc ? ? ? ? ?]. split; try done.
  intros x c Hx. destruct (Hc x c Hx) as [?|[?|(_ & _ & ?)]]; auto.
Qed.

Lemma relax_cases u du s to w :
  passable hazSnap to → is_Some (dist s !! to) →
  (relax hazSnap u du s (to, w) = s ∧ distLe (dist s) to (du + w)) ∨
  (relax hazSnap u du s (to, w)
     = {| dist := <[to := Fin (du + w)]> (dist s);
          prev := <[to := Some u]> (prev s);
          pq := pq s ++ [(to, du + w)] |} ∧
   ∀ c, dist s !! to = Some (Fin c) → du + w < c).
Proof.
  intros Hp [x Hx]. unfold relax. rewrite Hp, Hx. destruct x as [c|]; simpl.
  - destruct (Z.ltb_spec (du + w) c).
    + right. split; [done|]. intros c' [= <-]. done.
    + left. split; [done|]. exists c. split; [done|lia].
  - right. split; [done|]. intros c' [=].
Qed.

Lemma distLe_insert m to nd v c :
  (∀ c', m !! to = Some (Fin c') → nd < c') →
  distLe m v c → distLe (<[to := Fin nd]> m) v c.
Proof.
  intros Himp (c' & Hc' & Hle). destruct (decide (v = to)) as [->|Hne].
  - exists nd. rewrite lookup_insert_eq. split; [done|]. specialize (Himp _ Hc'). lia.
  - exists c'. by rewrite lookup_insert_ne.
Qed.

Lemma settled_insert m to nd rest x c :
  (∀ c', m !! to = Some (Fin c') → nd < c') →
  settled m rest x c → settled (<[to := Fin nd]> m) rest x c.
Proof.
  intros Himp Hs v w Hvw. destruct (Hs v w Hvw); [by left|right].
  by apply distLe_insert.
Qed.

(** One relaxation keeps the invariant and consumes one pending edge. *)
Lemma relax_Inv u du to w rest s :
  reach u du → distLe (dist s) u du → safeEdge fd hazSnap u to w →
  Inv u du ((to, w) :: rest) s →
  Inv u du rest (relax hazSnap u du s (to, w)) ∧
  distLe (dist (relax hazSnap u du s (to, w))) u du.
Proof.
  intros Hru Hu Hedge [Hsound Hqueue Hcover Hstart Hdom Hprev Hroot Hpdom].
  assert (passable hazSnap to) as Hpto by apply Hedge.
  assert (is_Some (dist s !! to)) as Hsome.
  { apply Hdom. eapply adj_dom, safeIn_sym, Hedge. }
  destruct (relax_cases u du s to w Hpto Hsome) as [[-> Hle]|[-> Himp]].
  - split; [|done]. split; try done.
    intros x c Hx. destruct (Hcover x c Hx) as [?|[?|(-> & -> & Hs)]]; auto.
    right; right. split; [done|]. split; [done|].
    intros v w' Hvw. destruct (Hs v w' Hvw) as [ [ [= -> ->] | ? ]%elem_of_cons | ? ]; auto.
  - simpl. split; [|by apply distLe_insert]. split; simpl.
    + intros v c. destruct (decide (v = to)) as [->|Hne].
      * rewrite lookup_insert_eq. intros [= <-]. by eapply reach_step.
      * rewrite lookup_insert_ne by done. apply Hsound.
    + intros v c [Hin | Heq%list_elem_of_singleton]%elem_of_app.
      * destruct (Hqueue v c Hin). split; [done|]. by apply distLe_insert.
      * injection Heq as -> ->. split; [done|]. exists (du + w). rewrite lookup_insert_eq. split; [done|lia].
    + intros x c. destruct (decide (x = to)) as [->|Hne].
      * rewrite lookup_insert_eq. intros [= <-]. left. set_solver.
      * rewrite lookup_insert_ne by done. intros Hx.
        destruct (Hcover x c Hx) as [?|[?|(-> & -> & Hs)]].
        -- left. set_solver.
        -- right; left. by apply settled_insert.
        -- right; right. split; [done|]. split; [done|].
           intros v w' Hvw. destruct (Hs v w' Hvw) as [ [ [= -> ->] | ? ]%elem_of_cons | ? ].
           ++ right. exists (du + w). rewrite lookup_insert_eq. split; [done|lia].
           ++ by left.
           ++ right. by apply distLe_insert.
    + by apply distLe_insert.
    + intros v Hv. destruct (decide (v = to)) as [->|Hne].
      * rewrite lookup_insert_eq. eauto.
      * rewrite lookup_insert_ne by done. by apply Hdom.
    + intros v p. destruct (decide (v = to)) as [->|Hne].
      * rewrite lookup_insert_eq. intros [= <-]. rewrite lookup_insert_eq.
        destruct Hu as (cu & Hcu & Hcule).
        destruct (decide (u = to)) as [->|Hne].
        -- exists w, (du + w), (du + w). rewrite lookup_insert_eq.
           specialize (Himp _ Hcu). split; [done|]. split; [done|]. split; [done|]. lia.
        -- exists w, cu, (du + w). rewrite lookup_insert_ne by done.
           split; [done|]. split; [done|]. split; [done|]. lia.
      * rewrite !(lookup_insert_ne _ to v) by done. intros Hp.
        destruct (Hprev v p Hp) as (w' & cp & cv & He & Hcp & Hcv & Hle).
        destruct (decide (p = to)) as [->|Hne'].
        -- exists w', (du + w), cv. rewrite lookup_insert_eq.
           specialize (Himp _ Hcp). split; [done|]. split; [done|]. split; [done|]. lia.
        -- exists w', cp, cv. rewrite lookup_insert_ne by done. done.
    + intros v c. destruct (decide (v = to)) as [->|Hne].
      * rewrite !lookup_insert_eq. eauto.
      * rewrite !lookup_insert_ne by done. apply Hroot.
    + intros v Hv. destruct (decide (v = to)) as [->|Hne].
      * rewrite lookup_insert_eq. eauto.
      * rewrite lookup_insert_ne by done. by apply Hpdom.
Qed.

Lemma relaxAll_Inv u du l : ∀ s,
  reach u du → distLe (dist s) u du →
  (∀ v w, (v, w) ∈ l → safeEdge fd hazSnap u v w) →
  Inv u du l s →
  Inv u du [] (foldl (relax hazSnap u du) s l).
Proof.
  induction l as [|[to w] l IH]; intros s Hru Hu Hl HI; [done|]. simpl.
  destruct (relax_Inv u du to w l s) as [HI' Hu']; try done.
  { apply Hl. set_solver. }
  apply IH; try done. intros v w' ?. apply Hl. set_solver.
Qed.


(** One turn of the [while] loop. *)
Lemma step_Inv s u du rest :
  Idle s → extractMin (pq s) = Some ((u, du), rest) →
  let s' := {| dist := dist s; prev := prev s; pq := rest |} in
  passable hazSnap u ∧
  (gtAt (Fin du) (dist s !! u) = true → Idle s') ∧
  (gtAt (Fin du) (dist s !! u) = false →
     dist s !! u = Some (Fin du) ∧
     Idle (foldl (relax hazSnap u du) s' (default [] (adj !! u)))).
Proof.
  intros [Hsound Hqueue Hcover Hstart Hdom Hprev Hroot Hpdom] [Hperm _]%extractMin_Some.
  intros s'. subst s'. assert ((u, du) ∈ pq s) as Hin by (rewrite Hperm; set_solver).
  destruct (Hqueue u du Hin) as [Hpu (cu & Hcu & Hcule)].
  assert (∀ x, x ∈ rest → x ∈ pq s) as Hsub by (intros x ?; rewrite Hperm; set_solver).
  split; [done|]. rewrite Hcu. simpl. split.
  - intros Hlt%Z.ltb_lt. split; simpl; try done.
    + intros v c ?. apply Hqueue. by apply Hsub.
    + intros x c Hx. destruct (Hcover x c Hx) as [Hq|[?|(_ & _ & ?)]]; auto.
      rewrite Hperm in Hq. apply elem_of_cons in Hq as [ [= -> ->] | ? ]; [|by left].
      simplify_eq. lia.
  - intros Hge%Z.ltb_ge. assert (cu = du) as -> by lia. split; [done|].
    apply (Inv_idle u du). apply relaxAll_Inv.
    + by apply Hsound.
    + by exists du.
    + intros v w Hvw. destruct (adj !! u) as [l|] eqn:Hl; [|by apply elem_of_nil in Hvw].
      by eapply adj_edges.
    + split; simpl; try done.
      * intros v c ?. apply Hqueue. by apply Hsub.
      * intros x c Hx. destruct (Hcover x c Hx) as [Hq|[?|(_ & _ & ?)]]; auto.
        rewrite Hperm in Hq. apply elem_of_cons in Hq as [ [= -> ->] | ? ]; [|by left].
        right; right. split; [done|]. split; [done|]. intros v w Hvw. left.
        destruct (adj_dom _ _ _ Hvw) as [l Hl]. rewrite Hl. simpl. by eapply adj_edges.
Qed.


Lemma dijkstraLoop_Final fuel : ∀ s D P,
  Idle s → dijkstraLoop fuel hazSnap adj s = Returned (D, P) → Final D P.
Proof.
  induction fuel as [|fuel IH]; intros s D P HI; simpl.
  - destruct (extractMin (pq s)) as [[[u du] rest]|] eqn:He; [done|].
    intros [= <- <-]. apply extractMin_None in He. destruct s; simpl in *. by subst.
  - destruct (extractMin (pq s)) as [[[u du] rest]|] eqn:He.
    + destruct (step_Inv s u du rest HI He) as (Hpu & Hstale & Hlive).
      destruct (gtAt (Fin du) (dist s !! u)); [by apply IH, Hstale|].
      rewrite Hpu. destruct (neighbours adj u) as [l|] eqn:Hn; [|done].
      apply neighbours_Some in Hn as ->. by apply IH, Hlive.
    + intros [= <- <-]. apply extractMin_None in He. destruct s; simpl in *. by subst.
Qed.

(** ** Consequences for the returned tables *)

Lemma Final_sound D P v c : Final D P → D !! v = Some (Fin c) → reach v c.
Proof. intros HF. apply (inv_sound _ _ _ _ _ _ _ _ HF). Qed.

Lemma Final_settled D P u v c w :
  Final D P → D !! u = Some (Fin c) → safeEdge fd hazSnap u v w →
  distLe D v (c + w).
Proof.
  intros HF Hu Hvw. destruct (inv_cover _ _ _ _ _ _ _ _ HF u c Hu) as [H|[H|(_ & _ & H)]].
  - by apply elem_of_nil in H.
  - destruct (H v w Hvw) as [?%elem_of_nil|?]; done.
  - destruct (H v w Hvw) as [?%elem_of_nil|?]; done.
Qed.


(** The predecessor of [v] is one hazard-free edge away and accounts
    exactly for the distance of [v]. *)
Lemma Final_prev D P v p :
  Final D P → P !! v = Some (Some p) →
  ∃ w cp, safeEdge fd hazSnap p v w ∧ D !! p = Some (Fin cp) ∧
          D !! v = Some (Fin (cp + w)).
Proof.
  intros HF Hp. destruct (inv_prev _ _ _ _ _ _ _ _ HF v p Hp) as (w & cp & cv & He & Hcp & Hcv & Hle).
  destruct (Final_settled D P p v cp w HF Hcp He) as (cv' & Hcv' & Hle').
  simpl in *. exists w, cp. split; [done|]. split; [done|].
  rewrite Hcv in Hcv'. injection Hcv' as <-. rewrite Hcv. do 2 f_equal. lia.
Qed.

Lemma Final_root D P v c :
  Final D P → D !! v = Some (Fin c) → v = startId ∨ ∃ p, P !! v = Some (Some p).
Proof. intros HF. apply (inv_root _ _ _ _ _ _ _ _ HF). Qed.


(** ** The initial state *)

Lemma initDist_lookup ids v :
  initDist ids !! v = if decide (v ∈ ids) then Some Infinity else None.
Proof. unfold initDist. by rewrite init_table_lookup, lookup_empty. Qed.

Lemma initPrev_lookup ids v :
  initPrev ids !! v = if decide (v ∈ ids) then Some None else None.
Proof. unfold initPrev. by rewrite init_table_lookup, lookup_empty. Qed.

Lemma initial_Idle ids :
  passable hazSnap startId →
  (∀ v, is_Some (adj !! v) → v ∈ ids) →
  Idle {| dist := <[startId := Fin 0]> (initDist ids);
          prev := initPrev ids;
          pq := [(startId, 0)] |}.
Proof.
  intros Hp Hids.
  assert (∀ v c, <[startId := Fin 0]> (initDist ids) !! v = Some (Fin c) →
                 v = startId ∧ c = 0) as Hfin.
  { intros v c. destruct (decide (v = startId)) as [->|Hne].
    - rewrite lookup_insert_eq. by intros [= <-].
    - rewrite lookup_insert_ne, initDist_lookup by done. by case_decide. }
  split; simpl.
  - intros v c [-> ->]%Hfin. constructor.
  - intros v c [= -> ->]%list_elem_of_singleton. split; [done|].
    exists 0. by rewrite lookup_insert_eq.
  - intros x c [-> ->]%Hfin. left. set_solver.
  - exists 0. by rewrite lookup_insert_eq.
  - intros v Hv%Hids. destruct (decide (v = startId)) as [->|Hne].
    + rewrite lookup_insert_eq. eauto.
    + rewrite lookup_insert_ne, initDist_lookup by done. rewrite decide_True by done. eauto.
  - intros v p. rewrite initPrev_lookup. by case_decide.
  - intros v c [-> ->]%Hfin. by left.
  - intros v Hv%Hids. rewrite initPrev_lookup. rewrite decide_True by done. eauto.
Qed.
End Search.

(** * Walks *)

Lemma walk_eq fd p c c' : walk fd p c → c = c' → walk fd p c'.
Proof. by intros ? <-. Qed.

Lemma walk_nonempty fd p c : walk fd p c → p ≠ [].
Proof. by destruct 1. Qed.

Lemma walk_snoc fd p u v w c :
  walk fd p c → last p = Some u → joined fd u v w → walk fd (p ++ [v]) (c + w).
Proof.
  induction 1 as [u0|u0 v0 p w0 c Hj Hw IH]; intros Hlast Hedge.
  - injection Hlast as ->. simpl. eapply walk_eq; [apply walk_cons, walk_one; done|lia].
  - simpl in Hlast. eapply walk_eq; [apply walk_cons; [done|]; by apply IH|lia].
Qed.


Section Paths.
Context (fd : FloorDef) (hazSnap : gmap string string) (startId : string).





End Paths.

(** * What [dijkstra] returns *)

Lemma dijkstra_Returned fuel fd startId hazSnap D P :
  dijkstra fuel fd startId hazSnap = Returned (D, P) →
  (nodeIsHazardous startId hazSnap = true ∧
   D = initDist (allIds fd) ∧ P = initPrev (allIds fd)) ∨
  (passable hazSnap startId ∧
   ∃ adj, buildAdjacency fd hazSnap = Returned adj ∧
          Final fd hazSnap startId adj D P).
Proof.
  unfold dijkstra. destruct (nodeIsHazardous startId hazSnap) eqn:Hs.
  - intros [= <- <-]. by left.
  - intros (adj & Hadj & Hloop)%bind_Returned. right. split; [done|].
    exists adj. split; [done|].
    destruct (buildAdjacency_spec _ _ _ Hadj) as (Hdom & Hdecl & Hedges).
    assert (∀ u v w, safeEdge fd hazSnap u v w → is_Some (adj !! u)) as Hsome.
    { intros u v w He. eapply Hdom, Hdecl, He. }
    eapply dijkstraLoop_Final; [done..| |apply Hloop].
    apply initial_Idle; try done. intros v. apply Hdom.
Qed.


(** * Path reconstruction *)


Lemma mkPathFrom_chain fuel P : ∀ cur acc p,
  mkPathFrom fuel P cur acc = Returned p → ∃ l, chain P cur l ∧ p = l ++ acc.
Proof.
  induction fuel as [|fuel IH]; intros [c|] acc p; simpl; try done.
  - intros [= <-]. exists []. split; [constructor|done].
  - destruct (P !! c) as [next|] eqn:Hc; [|done].
    intros (l & Hl & ->)%IH. exists (l ++ [c]). split; [by econstructor|].
    by rewrite <- app_assoc.
  - intros [= <-]. exists []. split; [constructor|done].
Qed.

Lemma mkPath_chain fuel P e p : mkPath fuel P e = Returned p → chain P (Some e) p.
Proof.
  intros (l & Hl & ->)%mkPathFrom_chain. by rewrite app_nil_r.
Qed.

Lemma chain_last P e l : chain P (Some e) l → last l = Some e.
Proof. inversion 1; subst. by rewrite last_snoc. Qed.

Section Chains.
Context (fd : FloorDef) (hazSnap : gmap string string) (startId : string).
Context (adj : adjacency) (D : gmap string num) (P : gmap string (option string)).
Hypothesis start_ok : passable hazSnap startId.
Hypothesis final : Final fd hazSnap startId adj D P.





Hypothesis weights_pos : positiveWeights fd.

Lemma safeEdge_pos u v w : safeEdge fd hazSnap u v w → 0 < w.
Proof. intros ([H|H] & _); by eapply weights_pos. Qed.

Lemma reach_nonneg v c : reach fd hazSnap startId v c → 0 ≤ c.
Proof.
  induction 1 as [|u v c w _ IH He]; [done|]. apply safeEdge_pos in He. lia.
Qed.

Lemma start_zero : D !! startId = Some (Fin 0).
Proof.
  destruct (inv_start _ _ _ _ _ _ _ _ final) as (c & Hc & Hle). simpl in Hc.
  pose proof (reach_nonneg _ _ (Final_sound _ _ _ _ _ _ _ _ final Hc)).
  rewrite Hc. do 2 f_equal. lia.
Qed.

(** With positive weights the chain from a node of finite distance [c]
    is a simple walk from the start of weight [c]. *)
Lemma chain_route cur l :
  chain P cur l → ∀ e c, cur = Some e → D !! e = Some (Fin c) →
  walk fd l c ∧ head l = Some startId ∧ NoDup l ∧
  ∀ x, x ∈ l → ∃ cx, D !! x = Some (Fin cx) ∧ cx ≤ c.
Proof.
  induction 1 as [|c0 next l Hc Hch IH]; intros e c [= ->] He.
  destruct next as [p|].
  - destruct (Final_prev _ _ _ _ _ _ _ _ final Hc) as (w & cp & Hedge & Hcp & Hcv).
    rewrite He in Hcv. injection Hcv as ->.
    pose proof (safeEdge_pos _ _ _ Hedge) as Hw.
    destruct (IH p cp eq_refl Hcp) as (Hwalk & Hhd & Hnd & Hall).
    split; [|split; [|split]].
    + eapply walk_snoc; [done| |apply Hedge]. by eapply chain_last.
    + destruct l; [by apply walk_nonempty in Hwalk|done].
    + apply NoDup_app. split; [done|]. split; [|apply NoDup_singleton].
      intros x Hx ->%list_elem_of_singleton.
      destruct (Hall _ Hx) as (cx & Hcx & Hle). rewrite He in Hcx.
      injection Hcx as <-. lia.
    + intros x [Hx | ->%list_elem_of_singleton]%elem_of_app.
      * destruct (Hall _ Hx) as (cx & Hcx & Hle). exists cx. split; [done|lia].
      * exists (cp + w). split; [done|lia].
  - inversion Hch; subst. simpl.
    destruct (Final_root _ _ _ _ _ _ _ _ final He) as [->|(p & Hp)]; [|congruence].
    rewrite start_zero in He. injection He as <-.
    split; [constructor|]. split; [done|]. split; [apply NoDup_singleton|].
    intros x ->%list_elem_of_singleton. exists 0. split; [apply start_zero|done].
Qed.
End Chains.

(** * Destination selection *)

Section Pick.
Context (fuel : nat) (hazSnap : gmap string string).
Context (D : gmap string num) (P : gmap string (option string)).

Local Abbreviation chosen := (chosen fuel hazSnap D P).


Lemma finiteAt_Some o z : finiteAt o = Some z ↔ o = Some (Fin z).
Proof. destruct o as [[?|]|]; simpl; naive_solver. Qed.

Lemma pickExit_cases best e best' :
  pickExit fuel hazSnap D P best (placeExit e) = Returned best' →
  (best' = best ∧
   (openExit hazSnap e → ∀ c, D !! Exit.id e = Some (Fin c) →
      ∃ b, best = Some b ∧ d b ≤ c)) ∨
  (∃ c p, openExit hazSnap e ∧ D !! Exit.id e = Some (Fin c) ∧
          mkPath fuel P (Exit.id e) = Returned p ∧
          best' = Some {| exitId := Exit.id e; d := c; path := p |} ∧
          ∀ b, best = Some b → c < d b).
Proof.
  unfold pickExit, openExit. change (exitId_of (placeExit e)) with (Exit.id e).
  case_bool_decide as Hblocked.
  { intros [= <-]. left. split; [done|]. by intros []. }
  destruct (finiteAt (D !! Exit.id e)) as [c|] eqn:Hfin.
  - apply finiteAt_Some in Hfin. destruct best as [b|].
    + destruct (Z.ltb_spec c (d b)).
      * intros (p & Hp & [= <-])%bind_Returned. right. exists c, p.
        repeat split; try done. by intros ? [= <-].
      * intros [= <-]. left. split; [done|]. intros _ c' Hc'. exists b.
        split; [done|]. rewrite Hfin in Hc'. injection Hc' as <-. done.
    + intros (p & Hp & [= <-])%bind_Returned. right. exists c, p.
      repeat split; try done.
  - intros [= <-]. left. split; [done|]. intros _ c Hc. rewrite Hc in Hfin. done.
Qed.


Lemma pickExits_spec es : ∀ best best',
  pickExits fuel hazSnap D P (placeExit <$> es) best = Returned best' →
  (best' = best ∨ ∃ b, best' = Some b ∧ chosen es b) ∧
  (∀ b0, best = Some b0 → ∃ b, best' = Some b ∧ d b ≤ d b0) ∧
  (∀ e c, e ∈ es → openExit hazSnap e → D !! Exit.id e = Some (Fin c) →
     ∃ b, best' = Some b ∧ d b ≤ c).
Proof.
  induction es as [|e es IH]; intros best best'.
  - intros [= <-]. split; [by left|]. split; [eauto with lia|].
    by intros e c ?%elem_of_nil.
  - cbn [fmap list_fmap pickExits].
    intros (best1 & H1 & H2)%bind_Returned.
    apply IH in H2 as (Hprov & Hmono & Hmin).
    assert (∀ b, chosen es b → chosen (e :: es) b) as Hweak.
    { intros b (x & ? & ?). exists x. split; [set_solver|done]. }
    apply pickExit_cases in H1 as [[-> Hnot]|(c & p & Ho & Hc & Hp & -> & Hlt)].
    + split; [|split; [done|]].
      * destruct Hprov as [?|(b & ? & ?)]; [by left|right; eauto].
      * intros x c [->|Hx]%elem_of_cons Ho Hc; [|by eapply Hmin].
        destruct (Hnot Ho c Hc) as (b & -> & Hle).
        destruct (Hmono b eq_refl) as (b' & -> & Hle'). exists b'. split; [done|lia].
    + destruct (Hmono _ eq_refl) as (b' & -> & Hle'). simpl in Hle'.
      split; [|split].
      * right. exists b'. split; [done|].
        destruct Hprov as [[= ->]|(b & [= <-] & ?)]; [|by apply Hweak].
        exists e. simpl. split; [set_solver|done].
      * intros b0 ->. exists b'. split; [done|]. specialize (Hlt _ eq_refl). lia.
      * intros x c' [->|Hx]%elem_of_cons Ho' Hc'; [|by eapply Hmin].
        exists b'. split; [done|]. rewrite Hc in Hc'. injection Hc' as <-. done.
Qed.


End Pick.

(** * Inverting the entry points *)

Lemma routeFrom_Returned fuel fd startId hazSnap res :
  routeFrom fuel fd startId hazSnap = Returned res →
  ∃ D P best,
    dijkstra fuel fd startId hazSnap = Returned (D, P) ∧
    pickExits fuel hazSnap D P (placeExit <$> exits fd) None = Returned best ∧
    res = match best with
          | None => None
          | Some b => if contaminated hazSnap (path b) then None else Some b
          end.
Proof.
  unfold routeFrom. simpl. intros ([D P] & HD & (best & Hbest & Hres)%bind_Returned)%bind_Returned.
  exists D, P, best. split; [done|]. split; [done|].
  destruct best as [b|]; [|by injection Hres]. by destruct (contaminated _ _); injection Hres.
Qed.

Lemma findRoute_Returned fuel bldg st res :
  findRoute fuel bldg st = Returned res →
  (res = None ∧ (pos st = None ∨ pos st = Some "")) ∨
  ∃ startId fd, pos st = Some startId ∧ startId ≠ "" ∧ bldg !! floor st = Some fd ∧
                routeFrom fuel fd startId (snapshotHazards st) = Returned res.
Proof.
  unfold findRoute. destruct (pos st) as [p|]; [|intros [= <-]; by left; auto].
  unfold truthy. case_bool_decide as Hp; simpl.
  - intros [= <-]. subst. left. auto.
  - destruct (bldg !! floor st) as [fd|]; [|done]. intros Hr. right. by exists p, fd.
Qed.



Lemma contaminated_false hazSnap p :
  contaminated hazSnap p = false ↔ Forall (passable hazSnap) (interior p).
Proof.
  unfold contaminated. rewrite Forall_forall. split.
  - intros H x Hx. unfold passable. destruct (nodeIsHazardous x hazSnap) eqn:Hh; [|done].
    rewrite <- H. symmetry. apply existsb_exists. exists x. by rewrite <- list_elem_of_In.
  - intros H. destruct (existsb _ _) eqn:He; [|done].
    apply existsb_exists in He as (x & Hx%list_elem_of_In & Hh).
    apply H in Hx. unfold passable in Hx. congruence.
Qed.

Lemma routeFrom_Some fuel fd startId hazSnap r :
  routeFrom fuel fd startId hazSnap = Returned (Some r) →
  ∃ D P, dijkstra fuel fd startId hazSnap = Returned (D, P) ∧
         chosen fuel hazSnap D P (exits fd) r ∧
         contaminated hazSnap (path r) = false ∧
         ∀ e c, e ∈ exits fd → openExit hazSnap e →
                D !! Exit.id e = Some (Fin c) → d r ≤ c.
Proof.
  intros (D & P & best & HD & Hpick & Hres)%routeFrom_Returned.
  exists D, P. split; [done|]. destruct best as [b|]; [|done].
  destruct (contaminated hazSnap (path b)) eqn:Hc; [done|]. injection Hres as ->.
  apply pickExits_spec in Hpick as ([[=]|(b' & [= <-] & Hch)] & _ & Hmin).
  split; [done|]. split; [done|]. intros e c He Ho Hd.
  destruct (Hmin e c He Ho Hd) as (b' & [= <-] & ?). done.
Qed.

(** * Scenarios of the specification *)

Example scenario1 :
  findRoute 40 BLDG (onGF (Some "entrance") ∅)
  = Returned (Some {| exitId := "exitA"; d := 1; path := ["entrance"; "exitA"] |}).
Proof. vm_compute. reflexivity. Qed.

Example scenario4 :
  findRoute 40 BLDG (onGF (Some "reception") {["exitB" := "exit-blocked"]})
  = Returned (Some {| exitId := "exitA"; d := 2;
                      path := ["reception"; "entrance"; "exitA"] |}).
Proof. vm_compute. reflexivity. Qed.

Example scenario6 :
  findRoute 40 BLDG
    (onGF (Some "kitchen") (<["exitA" := "exit-blocked"]> {["exitB" := "exit-blocked"]}))
  = Returned None.
Proof. vm_compute. reflexivity. Qed.

(** * The routing contract *)

Lemma interior_lookup (p : list string) i n :
  (0 < i)%nat → (S i < length p)%nat → p !! i = Some n → n ∈ interior p.
Proof.
  intros Hi Hlen Hn. unfold interior. apply elem_of_take. exists (i - 1)%nat.
  split; [|lia]. rewrite lookup_drop. by replace (1 + (i - 1))%nat with i by lia.
Qed.


Lemma passable_iff n hazSnap :
  passable hazSnap n ↔ ¬ impassableKind (orEmpty (hazSnap !! n)).
Proof. unfold passable, nodeIsHazardous, impassableKind. apply bool_decide_eq_false. Qed.

(** C1 (exclusion invariant).  Whenever [findRoute] returns a route, no
    node of its path other than the first and the last has a hazard kind
    in fire, smoke, blocked, closed under the snapshot of that call. *)
Theorem C1_exclusion fuel bldg st r i n :
  findRoute fuel bldg st = Returned (Some r) →
  (0 < i)%nat → (S i < length (path r))%nat → path r !! i = Some n →
  ¬ impassableKind (orEmpty (snapshotHazards st !! n)).
Proof.
  intros [[[=] _]|(startId & fd & _ & _ & _ & Hr)]%findRoute_Returned Hi Hlen Hn.
  apply routeFrom_Some in Hr as (D & P & _ & _ & Hclean & _).
  apply contaminated_false in Hclean. apply passable_iff.
  eapply Forall_forall; [done|]. by eapply interior_lookup.
Qed.

Lemma C1_witness :
  ¬ impassableKind
      (orEmpty (snapshotHazards (onGF (Some "main_hall") {["washroom" := "blocked"]})
                !! "entrance")).
Proof.
  apply (C1_exclusion 40 BLDG (onGF (Some "main_hall") {["washroom" := "blocked"]})
           {| exitId := "exitA"; d := 2; path := ["main_hall"; "entrance"; "exitA"] |}
           1 "entrance").
  - vm_compute. reflexivity.
  - lia.
  - simpl. lia.
  - reflexivity.
Defined.

(** C3 (destination eligibility).  The exit of a returned route is one of
    the floor's exits and its snapshot value is not exit-blocked. *)
Theorem C3_destination fuel bldg st fd r :
  bldg !! floor st = Some fd →
  findRoute fuel bldg st = Returned (Some r) →
  (∃ e, e ∈ exits fd ∧ Exit.id e = exitId r) ∧
  orEmpty (snapshotHazards st !! exitId r) ≠ "exit-blocked".
Proof.
  intros Hfd [[[=] _]|(startId & fd' & _ & _ & Hfd' & Hr)]%findRoute_Returned.
  rewrite Hfd in Hfd'. injection Hfd' as <-.
  apply routeFrom_Some in Hr as (D & P & _ & (e & He & Ho & Hid & _) & _).
  split; [by exists e|]. by rewrite Hid.
Qed.

Lemma C3_witness :
  (∃ e, e ∈ exits GF ∧ Exit.id e = "exitA") ∧
  orEmpty (snapshotHazards (onGF (Some "reception") {["exitB" := "exit-blocked"]})
           !! "exitA") ≠ "exit-blocked".
Proof.
  apply (C3_destination 40 BLDG (onGF (Some "reception") {["exitB" := "exit-blocked"]}) GF
           {| exitId := "exitA"; d := 2; path := ["reception"; "entrance"; "exitA"] |}).
  - reflexivity.
  - vm_compute. reflexivity.
Defined.

Lemma pickExits_none fuel hazSnap D P es :
  (∀ e, e ∈ es → finiteAt (D !! Exit.id e) = None) →
  pickExits fuel hazSnap D P (placeExit <$> es) None = Returned None.
Proof.
  induction es as [|e es IH]; intros Hall; [done|].
  cbn [fmap list_fmap pickExits]. unfold pickExit at 1.
  change (exitId_of (placeExit e)) with (Exit.id e).
  rewrite (Hall e) by (apply elem_of_cons; by left).
  case_bool_decide; cbn; apply IH; intros x ?; apply Hall; apply elem_of_cons; by right.
Qed.

Lemma exit_declared fd e : e ∈ exits fd → declared fd (Exit.id e).
Proof.
  intros He. unfold declared, allIds. simpl. apply elem_of_app. right.
  rewrite <- list_fmap_compose. apply list_elem_of_fmap. by exists e.
Qed.



(** Away from the inherited names the store behaves as a dictionary:
    setting a non-empty kind records it; setting the empty value deletes
    the entry of the node, which then reads as clear. *)
Lemma hazard_store_ordinary st id k :
  ordinaryKey (floor st) → ordinaryKey id → k ≠ "" →
  getHaz (setHaz st id k) id = k ∧
  (∃ m, haz (setHaz st id "") !! floor st = Some m ∧ m !! id = None) ∧
  getHaz (setHaz st id "") id = "".
Proof.
  intros _ Hid Hk. unfold getHaz, setHaz, truthy. simpl.
  rewrite (bool_decide_eq_false_2 _ Hk). simpl. rewrite lookup_insert_eq. simpl.
  rewrite lookup_insert_eq. simpl. rewrite lookup_insert_eq. simpl.
  rewrite lookup_delete_eq. unfold ordinaryKey in Hid. rewrite Hid.
  split; [done|]. split; [|done].
  eexists. split; [done|]. apply lookup_delete_eq.
Qed.

Lemma hazard_store_ordinary_witness :
  getHaz (setHaz (onGF None ∅) "kitchen" "smoke") "kitchen" = "smoke" ∧
  (∃ m, haz (setHaz (onGF None ∅) "kitchen" "") !! floor (onGF None ∅) = Some m ∧
        m !! "kitchen" = None) ∧
  getHaz (setHaz (onGF None ∅) "kitchen" "") "kitchen" = "".
Proof.
  apply (hazard_store_ordinary (onGF None ∅) "kitchen" "smoke");
    [reflexivity|reflexivity|discriminate].
Defined.

(** C8 (hazard store).  At a node whose id is a name inherited from
    [Object.prototype], setting the empty value removes the entry, but a
    read does not give the clear value: it gives the inherited member. *)
Theorem C8_inherited_id st id :
  inherited id = true →
  (∃ m, haz (setHaz st id "") !! floor st = Some m ∧ m !! id = None) ∧
  getHaz (setHaz st id "") id = Member ∧
  getHaz (setHaz st id "") id ≠ "".
Proof.
  intros Hid. unfold getHaz, setHaz, truthy. simpl.
  rewrite lookup_insert_eq. simpl. rewrite lookup_delete_eq, Hid.
  split; [|done]. eexists. split; [done|]. apply lookup_delete_eq.
Qed.

Lemma C8_failing_input :
  (∃ m, haz (setHaz initialState "constructor" "") !! floor initialState = Some m ∧
        m !! "constructor" = None) ∧
  getHaz (setHaz initialState "constructor" "") "constructor" = Member ∧
  getHaz (setHaz initialState "constructor" "") "constructor" ≠ "".
Proof.
  apply (C8_inherited_id initialState "constructor"). reflexivity.
Defined.

(** * Termination of the search loop *)


Lemma load_delete (t : adjacency) a la :
  t !! a = Some la → load t = (length la + load (delete a t))%nat.
Proof.
  intros Ha. unfold load. apply (map_fold_delete_L addLength 0%nat a la t); [|done].
  intros. unfold addLength. lia.
Qed.

Lemma load_insert_fresh (t : adjacency) a l :
  t !! a = None → load (<[a := l]> t) = (length l + load t)%nat.
Proof.
  intros Ha. unfold load. apply (map_fold_insert_L addLength 0%nat a l t); [|done].
  intros. unfold addLength. lia.
Qed.

Lemma load_insert (t : adjacency) a la l :
  t !! a = Some la → (load (<[a := l]> t) + length la = load t + length l)%nat.
Proof.
  intros Ha. rewrite (load_delete t a la Ha). rewrite <- (insert_delete_eq t a l).
  rewrite load_insert_fresh by apply lookup_delete_eq. lia.
Qed.

Lemma load_empty : load ∅ = 0%nat.
Proof. unfold load. apply map_fold_empty. Qed.

Lemma load_init (ids : list string) : ∀ t : adjacency,
  (load (foldl (λ adj n, <[n := []]> adj) t ids) ≤ load t)%nat.
Proof.
  induction ids as [|i ids IH]; intros t; simpl; [lia|].
  specialize (IH (<[i := []]> t)).
  destruct (t !! i) as [la|] eqn:Hi.
  - pose proof (load_insert t i la [] Hi). simpl in *. lia.
  - pose proof (load_insert_fresh t i [] Hi). simpl in *. lia.
Qed.

Lemma addEdge_load hazSnap adj e adj' :
  addEdge hazSnap adj e = Returned adj' → (load adj' ≤ load adj + 2)%nat.
Proof.
  destruct e as [[a b] w]. unfold addEdge.
  destruct (nodeIsHazardous a hazSnap || nodeIsHazardous b hazSnap).
  { intros [= <-]. lia. }
  destruct (adj !! a) as [la|] eqn:Ha; [|done].
  destruct (<[a := la ++ [(b, w)]]> adj !! b) as [lb|] eqn:Hb; [|done].
  intros [= <-].
  pose proof (load_insert _ _ _ (lb ++ [(a, w)]) Hb) as H1.
  pose proof (load_insert _ _ _ (la ++ [(b, w)]) Ha) as H2.
  rewrite !length_app in *. simpl in *. lia.
Qed.

Lemma addEdges_load hazSnap es : ∀ adj adj',
  addEdges hazSnap es adj = Returned adj' →
  (load adj' ≤ load adj + 2 * length es)%nat.
Proof.
  induction es as [|e es IH]; intros adj adj'; simpl.
  - intros [= <-]. lia.
  - intros (adj1 & H1%addEdge_load & H2%IH)%bind_Returned. lia.
Qed.

Lemma buildAdjacency_load fd hazSnap adj :
  buildAdjacency fd hazSnap = Returned adj → (load adj ≤ 2 * length (edges fd))%nat.
Proof.
  unfold buildAdjacency. intros H%addEdges_load.
  pose proof (load_init (allIds fd) ∅) as H0. rewrite load_empty in H0. lia.
Qed.


Section Termination.
Context (fd : FloorDef) (hazSnap : gmap string string) (startId : string).
Context (adj : adjacency).
Hypothesis adj_dom : ∀ u v w, safeEdge fd hazSnap u v w → is_Some (adj !! u).
Hypothesis adj_edges :
  ∀ u l, adj !! u = Some l → ∀ v w, (v, w) ∈ l ↔ safeEdge fd hazSnap u v w.
Hypothesis reach_edge_nonneg :
  ∀ u c v w, reach fd hazSnap startId u c → safeEdge fd hazSnap u v w → 0 ≤ w.
Hypothesis start_entry : is_Some (adj !! startId) ∨ inherited startId = false.

Local Abbreviation Inv := (Inv fd hazSnap startId adj).
Local Abbreviation Idle := (Idle fd hazSnap startId adj).
Local Abbreviation TInv := (TInv adj).

Lemma relax_TInv done todo u du to w rest s :
  Inv u du ((to, w) :: rest) s → safeEdge fd hazSnap u to w → 0 ≤ w →
  TInv done todo du s →
  TInv done todo du (relax hazSnap u du s (to, w)) ∧
  (length (pq (relax hazSnap u du s (to, w))) ≤ length (pq s) + 1)%nat.
Proof.
  intros HI Hedge Hw [Hlow Hdone Hnd Hstale Htodo].
  assert (passable hazSnap to) as Hpto by apply Hedge.
  assert (is_Some (dist s !! to)) as Hsome.
  { apply (inv_dom _ _ _ _ _ _ _ _ HI). eapply adj_dom, safeIn_sym, Hedge. }
  destruct (relax_cases hazSnap u du s to w Hpto Hsome) as [[-> Hle]|[-> Himp]].
  - split; [done|lia].
  - simpl. rewrite length_app. simpl. split; [|lia]. split; simpl.
    + intros v c [Hin | Heq%list_elem_of_singleton]%elem_of_app; [by eapply Hlow|].
      injection Heq as -> ->. lia.
    + intros v Hv. apply distLe_insert; [done|]. by apply Hdone.
    + apply NoDup_app. split; [done|]. split; [|apply NoDup_singleton].
      intros x Hx ->%list_elem_of_singleton.
      destruct (inv_queue _ _ _ _ _ _ _ _ HI _ _ Hx) as (_ & c' & Hc' & Hle).
      specialize (Himp _ Hc'). lia.
    + intros v c Hv Hin. destruct (decide (v = to)) as [->|Hne].
      * destruct (Hdone _ Hv) as (c' & Hc' & Hle). specialize (Himp _ Hc'). lia.
      * rewrite lookup_insert_ne by done.
        apply elem_of_app in Hin as [Hin | Heq%list_elem_of_singleton]; [by apply Hstale|].
        by injection Heq as -> ->.
    + done.
Qed.

Lemma relaxAll_TInv done todo u du l : ∀ s,
  reach fd hazSnap startId u du → distLe (dist s) u du →
  (∀ v w, (v, w) ∈ l → safeEdge fd hazSnap u v w) →
  Inv u du l s → TInv done todo du s →
  TInv done todo du (foldl (relax hazSnap u du) s l) ∧
  (length (pq (foldl (relax hazSnap u du) s l)) ≤ length (pq s) + length l)%nat.
Proof.
  induction l as [|[to w] l IH]; intros s Hru Hu Hl HI HT; cbn [foldl length];
    [split; [done|lia]|].
  assert (safeEdge fd hazSnap u to w) as Hedge by (apply Hl; apply elem_of_cons; by left).
  assert (Inv u du l (relax hazSnap u du s (to, w)) ∧
          distLe (dist (relax hazSnap u du s (to, w))) u du) as [HI' Hu']
    by (eapply relax_Inv; done).
  destruct (relax_TInv done todo u du to w l s) as [HT' Hlen]; try done.
  { by eapply reach_edge_nonneg. }
  destruct (IH (relax hazSnap u du s (to, w))) as [HT'' Hlen']; try done.
  { intros v w' ?. apply Hl. apply elem_of_cons. by right. }
  split; [done|lia].
Qed.

(** Each turn of the loop lowers [length pq + load todo]. *)
Lemma step_TInv done todo m s u du rest :
  Idle s → TInv done todo m s → extractMin (pq s) = Some ((u, du), rest) →
  let s' := {| dist := dist s; prev := prev s; pq := rest |} in
  (gtAt (Fin du) (dist s !! u) = true →
     TInv done todo m s' ∧ (length rest + load todo < length (pq s) + load todo)%nat) ∧
  (gtAt (Fin du) (dist s !! u) = false →
     ∃ done' todo',
       TInv done' todo' du (foldl (relax hazSnap u du) s' (default [] (adj !! u))) ∧
       (length (pq (foldl (relax hazSnap u du) s' (default [] (adj !! u)))) + load todo'
        < length (pq s) + load todo)%nat).
Proof.
  intros HI [Hlow Hdone Hnd Hstale Htodo] He s'. subst s'.
  destruct (step_Inv fd hazSnap startId adj adj_dom adj_edges s u du rest HI He)
    as (Hpu & _ & Hlive).
  apply extractMin_Some in He as [Hperm Hmin].
  assert ((u, du) ∈ pq s) as Hin by (rewrite Hperm; apply elem_of_cons; by left).
  assert (∀ x, x ∈ rest → x ∈ pq s) as Hsub
    by (intros x ?; rewrite Hperm; apply elem_of_cons; by right).
  assert (length (pq s) = S (length rest)) as Hlen by by rewrite Hperm.
  assert (NoDup ((u, du) :: rest)) as Hnd' by by rewrite <- Hperm.
  apply NoDup_cons in Hnd' as [Hfresh Hnd'].
  split.
  - intros _. split; [|lia]. split; simpl; try done.
    + intros v c ?. by eapply Hlow, Hsub.
    + intros v c ? ?. by eapply Hstale; [|apply Hsub].
  - intros Hge. destruct (Hlive Hge) as [Hu _].
    assert (u ∉ done) as Hnew by (intros ?; by eapply Hstale).
    assert (m ≤ du) as Hm by by eapply Hlow.
    assert (reach fd hazSnap startId u du) as Hru
      by (eapply inv_sound; [apply HI|done]).
    set (s' := {| dist := dist s; prev := prev s; pq := rest |}).
    assert (Inv u du (default [] (adj !! u)) s') as HI'.
    { destruct HI as [Hsound Hqueue Hcover Hstart Hdom Hprev Hroot Hpdom]. split; simpl; try done.
      - intros v c ?. apply Hqueue. by apply Hsub.
      - intros x c Hx. destruct (Hcover x c Hx) as [Hq|[?|(_ & _ & ?)]]; auto.
        rewrite Hperm in Hq. apply elem_of_cons in Hq as [ [= -> ->] | ? ]; [|by left].
        right; right. split; [done|]. split; [done|]. intros v w Hvw. left.
        destruct (adj_dom _ _ _ Hvw) as [l Hl]. rewrite Hl. simpl. by eapply adj_edges. }
    assert (∀ todo', (∀ v l, v ∉ done ∪ {[u]} → adj !! v = Some l → todo' !! v = Some l) →
              TInv (done ∪ {[u]}) todo' du s') as HT'.
    { intros todo' Htodo'. split; simpl; try done.
      - intros v c Hv. apply (Hmin (v, c)). by apply Hsub.
      - intros v [Hv| ->%elem_of_singleton]%elem_of_union.
        + destruct (Hdone v Hv) as (c' & Hc' & Hle). exists c'. split; [done|lia].
        + exists du. split; [done|lia].
      - intros v c [Hv| ->%elem_of_singleton]%elem_of_union Hvc.
        + by eapply Hstale; [|apply Hsub].
        + rewrite Hu. intros [= <-]. done. }
    assert (distLe (dist s') u du) as Hule by (exists du; split; [done|lia]).
    assert (∀ v w, (v, w) ∈ default [] (adj !! u) → safeEdge fd hazSnap u v w) as Hl.
    { intros v w Hvw. destruct (adj !! u) as [l|] eqn:Hl; [|by apply elem_of_nil in Hvw].
      by eapply adj_edges. }
    destruct (adj !! u) as [l|] eqn:Hadj; simpl in *.
    + exists (done ∪ {[u]}), (delete u todo).
      destruct (relaxAll_TInv (done ∪ {[u]}) (delete u todo) u du l s')
        as [HT'' Hlen']; try done.
      { apply HT'. intros v l' Hv Hl'. rewrite lookup_delete_ne by set_solver.
        apply Htodo; [set_solver|done]. }
      split; [done|]. rewrite (load_delete todo u l) by by apply Htodo.
      simpl in Hlen'. lia.
    + exists (done ∪ {[u]}), todo. split; [|simpl; lia].
      apply HT'. intros v l' Hv Hl'. apply Htodo; [set_solver|done].
Qed.

Lemma dijkstraLoop_returns fuel : ∀ s done todo m,
  Idle s → TInv done todo m s → (length (pq s) + load todo ≤ fuel)%nat →
  ∃ D P, dijkstraLoop fuel hazSnap adj s = Returned (D, P).
Proof.
  induction fuel as [|fuel IH]; intros s done todo m HI HT Hfuel.
  - destruct (pq s) as [|x q] eqn:Hq; [|simpl in Hfuel; lia].
    simpl. rewrite Hq. simpl. eauto.
  - simpl. destruct (extractMin (pq s)) as [[[u du] rest]|] eqn:He; [|eauto].
    destruct (step_Inv fd hazSnap startId adj adj_dom adj_edges s u du rest HI He)
      as (Hpu & Hstale & Hlive).
    destruct (step_TInv done todo m s u du rest HI HT He) as (Tstale & Tlive).
    destruct (gtAt (Fin du) (dist s !! u)).
    + destruct (Tstale eq_refl) as [HT' Hlt]. eapply IH; [by apply Hstale|done|].
      simpl. lia.
    + rewrite Hpu. destruct (Tlive eq_refl) as (done' & todo' & HT' & Hlt).
      destruct (Hlive eq_refl) as [Hu HI'].
      assert (is_Some (neighbours adj u)) as [l Hn].
      { apply neighbours_known.
        destruct (inv_sound _ _ _ _ _ _ _ _ HI u du Hu) as [|x v c w _ Hedge]; [done|].
        left. apply safeIn_sym in Hedge. by eapply adj_dom. }
      rewrite Hn. apply neighbours_Some in Hn as ->.
      eapply IH; [done|done|lia].
Qed.

Lemma initial_TInv ids :
  TInv ∅ adj 0 {| dist := <[startId := Fin 0]> (initDist ids);
                  prev := initPrev ids;
                  pq := [(startId, 0)] |}.
Proof.
  split; simpl.
  - intros v c [= -> ->]%list_elem_of_singleton. done.
  - intros v ?%not_elem_of_empty. done.
  - apply NoDup_singleton.
  - intros v c ?%not_elem_of_empty. done.
  - done.
Qed.
End Termination.

(** * When the calls return *)

Lemma addEdges_returns hazSnap es : ∀ adj,
  (∀ a b w, (a, b, w) ∈ es → passable hazSnap a → passable hazSnap b →
            is_Some (adj !! a) ∧ is_Some (adj !! b)) →
  ∃ adj', addEdges hazSnap es adj = Returned adj'.
Proof.
  induction es as [|[[a b] w] es IH]; intros adj Hall; cbn [addEdges]; [eauto|].
  assert (∃ adj1, addEdge hazSnap adj (a, b, w) = Returned adj1) as [adj1 H1].
  { unfold addEdge. destruct (nodeIsHazardous a hazSnap) eqn:Ha; simpl; [eauto|].
    destruct (nodeIsHazardous b hazSnap) eqn:Hb; simpl; [eauto|].
    destruct (Hall a b w) as [[la Hla] [lb Hlb]]; [apply elem_of_cons; by left|done..|].
    rewrite Hla. destruct (decide (a = b)) as [->|Hne].
    - rewrite lookup_insert_eq. eauto.
    - rewrite lookup_insert_ne, Hlb by done. eauto. }
  rewrite H1. cbn. apply IH. intros a' b' w' Hin Ha' Hb'.
  apply addEdge_spec in H1 as (Hdom & _). rewrite !Hdom.
  apply (Hall a' b' w'); [apply elem_of_cons; by right|done..].
Qed.


Lemma buildAdjacency_returns fd hazSnap :
  endpointsDeclared fd → ∃ adj, buildAdjacency fd hazSnap = Returned adj.
Proof.
  intros Hdecl. unfold buildAdjacency. apply addEdges_returns.
  intros a b w [Ha Hb]%Hdecl _ _. rewrite !init_table_lookup.
  unfold declared in *. rewrite !decide_True by done. eauto.
Qed.

Lemma dijkstra_returns fuel fd startId hazSnap :
  (passable hazSnap startId →
     (∃ adj, buildAdjacency fd hazSnap = Returned adj) ∧
     knownStart fd startId ∧
     ∀ u c v w, reach fd hazSnap startId u c → safeEdge fd hazSnap u v w → 0 ≤ w) →
  (searchFuel fd ≤ fuel)%nat →
  ∃ D P, dijkstra fuel fd startId hazSnap = Returned (D, P).
Proof.
  intros Hok Hfuel. unfold dijkstra.
  destruct (nodeIsHazardous startId hazSnap) eqn:Hs; [eauto|].
  destruct (Hok Hs) as ([adj Hadj] & Hknown & Hnn). rewrite Hadj. cbn.
  destruct (buildAdjacency_spec _ _ _ Hadj) as (Hdom & Hdecl & Hedges).
  assert (∀ u v w, safeEdge fd hazSnap u v w → is_Some (adj !! u)) as Hsome.
  { intros u v w He. eapply Hdom, Hdecl, He. }
  assert (is_Some (adj !! startId) ∨ inherited startId = false) as Hentry.
  { destruct Hknown as [?|?]; [left; by apply Hdom|by right]. }
  eapply (dijkstraLoop_returns fd hazSnap startId adj Hsome Hedges Hnn Hentry fuel _ ∅ adj 0).
  - apply initial_Idle; try done. intros v. apply Hdom.
  - apply initial_TInv.
  - apply buildAdjacency_load in Hadj. unfold searchFuel in Hfuel. simpl. lia.
Qed.

Lemma dijkstra_defined fuel fd startId hazSnap D P v :
  dijkstra fuel fd startId hazSnap = Returned (D, P) →
  declared fd v → is_Some (D !! v).
Proof.
  intros [(_ & -> & _)|(Hp & adj & Hadj & HF)]%dijkstra_Returned Hv.
  - rewrite initDist_lookup. rewrite decide_True by done. eauto.
  - destruct (buildAdjacency_spec _ _ _ Hadj) as (Hdom & _).
    apply (inv_dom _ _ _ _ _ _ _ _ HF). by apply Hdom.
Qed.



(** A start without an adjacency entry is extracted and, when its name is
    found nowhere, nothing else happens. *)
Lemma dijkstraLoop_isolated fuel hazSnap (adj : adjacency) startId D0 P0 :
  adj !! startId = None → inherited startId = false →
  dijkstraLoop (S fuel) hazSnap adj
    {| dist := <[startId := Fin 0]> D0; prev := P0; pq := [(startId, 0)] |}
  = Returned (<[startId := Fin 0]> D0, P0).
Proof.
  intros Hnone Hord. cbn [dijkstraLoop pq extractMin scanMin dist prev].
  change ((λ e, (e, delete 0%nat [(startId, 0)])) <$> [(startId, 0)] !! 0%nat)
    with (Some ((startId, 0), @nil (string * Z))).
  cbn beta iota. unfold neighbours. rewrite lookup_insert_eq, Hnone, Hord.
  cbn [gtAt num_ltb foldl]. rewrite Z.ltb_irrefl.
  destruct (nodeIsHazardous startId hazSnap); by destruct fuel.
Qed.

(** When its name is found on the prototype, the iteration over what the
    read gives throws. *)
Lemma dijkstraLoop_inherited fuel hazSnap (adj : adjacency) startId D0 P0 :
  adj !! startId = None → inherited startId = true → passable hazSnap startId →
  dijkstraLoop (S fuel) hazSnap adj
    {| dist := <[startId := Fin 0]> D0; prev := P0; pq := [(startId, 0)] |}
  = Thrown.
Proof.
  intros Hnone Hinh Hp. cbn [dijkstraLoop pq extractMin scanMin dist prev].
  change ((λ e, (e, delete 0%nat [(startId, 0)])) <$> [(startId, 0)] !! 0%nat)
    with (Some ((startId, 0), @nil (string * Z))).
  cbn beta iota. unfold neighbours. rewrite lookup_insert_eq, Hnone, Hinh, Hp.
  cbn [gtAt num_ltb]. by rewrite Z.ltb_irrefl.
Qed.


Lemma unknown_start_returns fuel bldg st fd startId :
  pos st = Some startId → startId ≠ "" → bldg !! floor st = Some fd →
  endpointsDeclared fd → ¬ declared fd startId → ordinaryKey startId → (1 ≤ fuel)%nat →
  findRoute fuel bldg st = Returned None.
Proof.
  intros Hpos Hne Hfd Hdecl Hnew Hord Hfuel. unfold findRoute, truthy.
  rewrite Hpos, Hfd, (bool_decide_eq_false_2 _ Hne). simpl.
  set (hazSnap := snapshotHazards st).
  assert (∃ D P, dijkstra fuel fd startId hazSnap = Returned (D, P) ∧
                 ∀ e, e ∈ exits fd → D !! Exit.id e = Some Infinity) as (D & P & HD & Hinf).
  { assert (∀ e, e ∈ exits fd → initDist (allIds fd) !! Exit.id e = Some Infinity) as Hinit.
    { intros e He%exit_declared. rewrite initDist_lookup. by rewrite decide_True. }
    unfold dijkstra. destruct (nodeIsHazardous startId hazSnap); [eauto|].
    destruct (buildAdjacency_returns fd hazSnap Hdecl) as [adj Hadj]. rewrite Hadj. cbn.
    destruct (buildAdjacency_spec _ _ _ Hadj) as (Hdom & _).
    assert (adj !! startId = None) as Hnone.
    { apply eq_None_not_Some. by rewrite Hdom. }
    destruct fuel as [|fuel]; [lia|]. rewrite dijkstraLoop_isolated by done.
    do 2 eexists. split; [done|]. intros e He.
    rewrite lookup_insert_ne; [by apply Hinit|]. intros ->. by apply Hnew, exit_declared. }
  unfold routeFrom. simpl. rewrite HD. cbn. rewrite pickExits_none; [done|].
  intros e He. by rewrite Hinf.
Qed.

Lemma GF_endpointsDeclared : endpointsDeclared GF.
Proof.
  intros a b w Hin. unfold declared. vm_compute allIds.
  vm_compute in Hin. set_solver.
Qed.

(** An undeclared start that names a member of [Object.prototype], and
    that is passable, makes the call throw: [adj[u] || []] finds the
    inherited member, which [for ... of] cannot iterate. *)
Lemma inherited_start_throws fuel bldg st fd startId :
  pos st = Some startId → bldg !! floor st = Some fd →
  endpointsDeclared fd → ¬ declared fd startId → inherited startId = true →
  passable (snapshotHazards st) startId → (1 ≤ fuel)%nat →
  findRoute fuel bldg st = Thrown.
Proof.
  intros Hpos Hfd Hdecl Hnew Hinh Hp Hfuel. unfold findRoute, truthy.
  assert (startId ≠ "") as Hne by (intros ->; by vm_compute in Hinh).
  rewrite Hpos, Hfd, (bool_decide_eq_false_2 _ Hne). simpl.
  unfold routeFrom, dijkstra. simpl. rewrite Hp.
  destruct (buildAdjacency_returns fd (snapshotHazards st) Hdecl) as [adj Hadj].
  rewrite Hadj. cbn.
  destruct (buildAdjacency_spec _ _ _ Hadj) as (Hdom & _).
  assert (adj !! startId = None) as Hnone.
  { apply eq_None_not_Some. by rewrite Hdom. }
  destruct fuel as [|fuel]; [lia|]. by rewrite dijkstraLoop_inherited.
Qed.



Lemma GF_positiveWeights : positiveWeights GF.
Proof.
  intros a b w Hin. unfold GF, edges in Hin.
  repeat (apply elem_of_cons in Hin as [ [= -> -> ->] | Hin ]; [lia|]).
  by apply elem_of_nil in Hin.
Qed.






(** * Adding a hazard *)

Section Extend.
Context (hazSnap : gmap string string) (n k : string).
Hypothesis k_impassable : impassableKind k.




End Extend.






Section Monotone.
Context (fd : FloorDef) (startId : string) (hazSnap : gmap string string).
Context (n k : string).
Hypothesis k_impassable : impassableKind k.
Local Abbreviation hazSnap' := (<[n := k]> hazSnap).



End Monotone.







(** * No route, with sums of integers *)


Lemma positive_reach_nonneg fd hazSnap startId u c v w :
  positiveWeights fd →
  reach fd hazSnap startId u c → safeEdge fd hazSnap u v w → 0 ≤ w.
Proof. intros Hpos _ ([H|H] & _); apply Hpos in H; lia. Qed.




(** * When [findRoute] returns, with sums of integers *)

Lemma mkPathFrom_fuel P cur l :
  chain P cur l → ∀ fuel acc, (length l ≤ fuel)%nat →
  mkPathFrom fuel P cur acc = Returned (l ++ acc).
Proof.
  induction 1 as [|c next l Hc Hch IH]; intros fuel acc Hfuel.
  - by destruct fuel.
  - rewrite length_app in Hfuel. simpl in Hfuel. destruct fuel as [|fuel]; [lia|].
    simpl. rewrite Hc. rewrite IH by lia. by rewrite <- app_assoc.
Qed.

Section Reconstruct.
Context (fd : FloorDef) (hazSnap : gmap string string) (startId : string).
Context (adj : adjacency) (D : gmap string num) (P : gmap string (option string)).
Hypothesis start_ok : passable hazSnap startId.
Hypothesis final : Final fd hazSnap startId adj D P.
Hypothesis weights_pos : positiveWeights fd.
Hypothesis adj_dom : ∀ u v w, safeEdge fd hazSnap u v w → is_Some (adj !! u).
Hypothesis adj_declared : ∀ u, is_Some (adj !! u) → declared fd u.

Lemma finite_nonneg v c : D !! v = Some (Fin c) → 0 ≤ c.
Proof.
  intros Hv. eapply reach_nonneg; [done|]. by eapply Final_sound.
Qed.

(** [prev] of a declared start stays [null]. *)
Lemma prev_start : is_Some (adj !! startId) → P !! startId = Some None.
Proof.
  intros Hs. destruct (inv_pdom _ _ _ _ _ _ _ _ final _ Hs) as [[p|] Hp]; [|done].
  simpl in Hp. destruct (Final_prev _ _ _ _ _ _ _ _ final Hp) as (w & cp & He & Hcp & Hc).
  pose proof (finite_nonneg _ _ Hcp). pose proof (safeEdge_pos _ _ weights_pos _ _ _ He).
  rewrite (start_zero fd hazSnap startId adj D P) in Hc by done. injection Hc as Hc. lia.
Qed.

Lemma chain_exists n : ∀ e c,
  D !! e = Some (Fin c) → (Z.to_nat c ≤ n)%nat → is_Some (adj !! e) →
  ∃ l, chain P (Some e) l ∧ ∀ x, x ∈ l → is_Some (adj !! x).
Proof.
  assert (∀ e, e = startId → is_Some (adj !! e) →
            ∃ l, chain P (Some e) l ∧ ∀ x, x ∈ l → is_Some (adj !! x)) as Hbase.
  { intros e -> He. exists ([] ++ [startId]). split.
    - econstructor; [by apply prev_start|constructor].
    - by intros x ->%list_elem_of_singleton. }
  induction n as [|n IH]; intros e c He Hn Hadj.
  - destruct (Final_root _ _ _ _ _ _ _ _ final He) as [->|(p & Hp)]; [by apply Hbase|].
    destruct (Final_prev _ _ _ _ _ _ _ _ final Hp) as (w & cp & Hedge & Hcp & Hc).
    pose proof (finite_nonneg _ _ Hcp). pose proof (safeEdge_pos _ _ weights_pos _ _ _ Hedge).
    rewrite He in Hc. injection Hc as ->. lia.
  - destruct (Final_root _ _ _ _ _ _ _ _ final He) as [->|(p & Hp)]; [by apply Hbase|].
    destruct (Final_prev _ _ _ _ _ _ _ _ final Hp) as (w & cp & Hedge & Hcp & Hc).
    pose proof (finite_nonneg _ _ Hcp). pose proof (safeEdge_pos _ _ weights_pos _ _ _ Hedge).
    rewrite He in Hc. injection Hc as ->.
    destruct (IH p cp Hcp) as (l & Hl & Hall); [lia|by eapply adj_dom|].
    exists (l ++ [e]). split; [by econstructor|].
    intros x [Hx | ->%list_elem_of_singleton]%elem_of_app; [by apply Hall|done].
Qed.

Lemma mkPath_returns fuel e c :
  D !! e = Some (Fin c) → is_Some (adj !! e) → (length (allIds fd) ≤ fuel)%nat →
  ∃ p, mkPath fuel P e = Returned p.
Proof.
  intros He Hadj Hfuel.
  destruct (chain_exists (Z.to_nat c) e c He (Nat.le_refl _) Hadj) as (l & Hl & Hall).
  destruct (chain_route fd hazSnap startId adj D P final weights_pos _ _ Hl e c eq_refl He)
    as (_ & _ & Hnd & _).
  assert (length l ≤ length (allIds fd))%nat as Hlen.
  { apply submseteq_length, NoDup_submseteq; [done|]. intros x Hx. by apply adj_declared, Hall. }
  exists (l ++ []). unfold mkPath. apply mkPathFrom_fuel; [done|lia].
Qed.
End Reconstruct.

Lemma pickExits_returns fuel hazSnap D P es :
  (∀ e c, e ∈ es → D !! Exit.id e = Some (Fin c) →
          ∃ p, mkPath fuel P (Exit.id e) = Returned p) →
  ∀ best, ∃ best', pickExits fuel hazSnap D P (placeExit <$> es) best = Returned best'.
Proof.
  induction es as [|e es IH]; intros Hall best; [by eexists|].
  cbn [fmap list_fmap pickExits].
  assert (∃ best1, pickExit fuel hazSnap D P best (placeExit e) = Returned best1)
    as [best1 ->].
  { unfold pickExit. change (exitId_of (placeExit e)) with (Exit.id e).
    case_bool_decide; [by eexists|].
    destruct (finiteAt (D !! Exit.id e)) as [c|] eqn:Hc; [|by eexists].
    apply finiteAt_Some in Hc.
    destruct (Hall e c) as [p ->]; [apply elem_of_cons; by left|done|].
    destruct best as [b|]; [destruct (c <? d b)|]; by eexists. }
  cbn. apply IH. intros x c Hx. apply Hall. apply elem_of_cons. by right.
Qed.

Lemma routeFrom_returns fuel fd startId hazSnap :
  positiveWeights fd → endpointsDeclared fd → knownStart fd startId →
  (routeFuel fd ≤ fuel)%nat →
  ∃ res, routeFrom fuel fd startId hazSnap = Returned res.
Proof.
  intros Hw Hdecl Hknown Hfuel. unfold routeFuel in Hfuel.
  destruct (dijkstra_returns fuel fd startId hazSnap) as (D & P & HD); [|lia|].
  { intros _. split; [by apply buildAdjacency_returns|]. split; [done|].
    intros u c v w. by apply positive_reach_nonneg. }
  destruct (pickExits_returns fuel hazSnap D P (exits fd)) with (best := @None Route)
    as [best Hbest].
  { intros e c He Hc.
    pose proof HD as [(_ & -> & _)|(Hp & adj & Hadj & HF)]%dijkstra_Returned.
    { rewrite initDist_lookup in Hc. by case_decide. }
    destruct (buildAdjacency_spec _ _ _ Hadj) as (Hdom & Hdecl' & _).
    eapply (mkPath_returns fd hazSnap startId adj D P); try done.
    - intros u v w' Hu. eapply Hdom, Hdecl', Hu.
    - intros u. apply Hdom.
    - by apply Hdom, exit_declared.
    - lia. }
  unfold routeFrom. simpl. rewrite HD. cbn. rewrite Hbest. cbn.
  destruct best as [b|]; [destruct (contaminated hazSnap (path b))|]; by eexists.
Qed.




(** * Sums of doubles *)

Lemma fl_exact z : - 2 ^ 53 ≤ z ≤ 2 ^ 53 → fl z = Fin z.
Proof.
  intros Hz. unfold fl. destruct (Z.abs z <? 2 ^ 53) eqn:Ha; [done|].
  apply Z.ltb_ge in Ha.
  assert (z = 2 ^ 53 ∨ z = - 2 ^ 53) as [-> | ->] by lia; vm_compute; reflexivity.
Qed.

Lemma relaxF_exact hazSnap u du s to w :
  - 2 ^ 53 ≤ du + w ≤ 2 ^ 53 →
  relaxF hazSnap u du s (to, w) = relax hazSnap u du s (to, w).
Proof. intros Hz. unfold relaxF, relax. by rewrite fl_exact. Qed.

Lemma relax_keys hazSnap u du s to w K :
  (∀ v c, (v, c) ∈ pq s → 0 ≤ c ≤ K) → 0 ≤ du + w ≤ K →
  ∀ v c, (v, c) ∈ pq (relax hazSnap u du s (to, w)) → 0 ≤ c ≤ K.
Proof.
  intros Hq Hz v c. unfold relax. destruct (nodeIsHazardous to hazSnap); [apply Hq|].
  destruct (ltAt _ _); [|apply Hq]. simpl.
  intros [Hin|[= -> ->]%list_elem_of_singleton]%elem_of_app; [by eapply Hq|done].
Qed.

Lemma relaxAllF_exact hazSnap u du K l : ∀ s,
  K ≤ 2 ^ 53 → (∀ v w, (v, w) ∈ l → 0 ≤ du + w ≤ K) →
  (∀ v c, (v, c) ∈ pq s → 0 ≤ c ≤ K) →
  foldl (relaxF hazSnap u du) s l = foldl (relax hazSnap u du) s l ∧
  ∀ v c, (v, c) ∈ pq (foldl (relax hazSnap u du) s l) → 0 ≤ c ≤ K.
Proof.
  induction l as [|[to w] l IH]; intros s HK Hl Hq; [done|]. cbn [foldl].
  assert (0 ≤ du + w ≤ K) as Hw by (eapply Hl; apply elem_of_cons; by left).
  rewrite relaxF_exact by lia. apply IH; [done| |by apply relax_keys].
  intros v w' Hin. eapply Hl. apply elem_of_cons. by right.
Qed.

(** As long as the keys of the queue and the weights leave room below
    2^53 for the turns to come, the loop on doubles takes the very steps of
    the loop on integers. *)
Lemma dijkstraLoopF_exact W hazSnap (adj : adjacency) :
  0 ≤ W → (∀ u l v w, adj !! u = Some l → (v, w) ∈ l → 0 ≤ w ≤ W) →
  ∀ fuel s K, (∀ v c, (v, c) ∈ pq s → 0 ≤ c ≤ K) → K + Z.of_nat fuel * W ≤ 2 ^ 53 →
  dijkstraLoopF fuel hazSnap adj s = dijkstraLoop fuel hazSnap adj s.
Proof.
  intros HW Hadj. induction fuel as [|fuel IH]; intros s K Hq HK; [done|]. simpl.
  destruct (extractMin (pq s)) as [[[u du] rest]|] eqn:He; [|done].
  apply extractMin_Some in He as [Hperm _].
  assert (0 ≤ du ≤ K) as Hdu.
  { apply (Hq u). rewrite Hperm. apply elem_of_cons. by left. }
  assert (∀ v c, (v, c) ∈ rest → 0 ≤ c ≤ K) as Hrest.
  { intros v c Hin. apply (Hq v). rewrite Hperm. apply elem_of_cons. by right. }
  destruct (gtAt (Fin du) (dist s !! u)); [apply (IH _ K); [done|lia]|].
  destruct (nodeIsHazardous u hazSnap); [apply (IH _ K); [done|lia]|].
  destruct (neighbours adj u) as [l|] eqn:Hn; [|done].
  apply neighbours_Some in Hn.
  destruct (relaxAllF_exact hazSnap u du (K + W) l
              {| dist := dist s; prev := prev s; pq := rest |}) as [-> Hkeys].
  - lia.
  - intros v w Hin. subst l. destruct (adj !! u) as [l0|] eqn:Hu; simpl in Hin.
    + pose proof (Hadj u l0 v w Hu Hin). lia.
    + by apply elem_of_nil in Hin.
  - intros v c Hin. simpl in Hin. pose proof (Hrest v c Hin). lia.
  - apply (IH _ (K + W)); [done|lia].
Qed.

Lemma dijkstraLoop_more hazSnap adj fuel : ∀ fuel' s,
  dijkstraLoop fuel hazSnap adj s ≠ OutOfFuel → (fuel ≤ fuel')%nat →
  dijkstraLoop fuel' hazSnap adj s = dijkstraLoop fuel hazSnap adj s.
Proof.
  induction fuel as [|fuel IH]; intros fuel' s H Hle.
  - destruct fuel'; simpl in *; destruct (extractMin (pq s)) as [[[u du] rest]|]; done.
  - destruct fuel' as [|fuel']; [lia|]. simpl in *.
    destruct (extractMin (pq s)) as [[[u du] rest]|]; [|done].
    destruct (gtAt _ _); [apply IH; [done|lia]|].
    destruct (nodeIsHazardous _ _); [apply IH; [done|lia]|].
    destruct (neighbours adj u); [|done]. apply IH; [done|lia].
Qed.

Lemma dijkstraLoopF_more hazSnap adj fuel : ∀ fuel' s,
  dijkstraLoopF fuel hazSnap adj s ≠ OutOfFuel → (fuel ≤ fuel')%nat →
  dijkstraLoopF fuel' hazSnap adj s = dijkstraLoopF fuel hazSnap adj s.
Proof.
  induction fuel as [|fuel IH]; intros fuel' s H Hle.
  - destruct fuel'; simpl in *; destruct (extractMin (pq s)) as [[[u du] rest]|]; done.
  - destruct fuel' as [|fuel']; [lia|]. simpl in *.
    destruct (extractMin (pq s)) as [[[u du] rest]|]; [|done].
    destruct (gtAt _ _); [apply IH; [done|lia]|].
    destruct (nodeIsHazardous _ _); [apply IH; [done|lia]|].
    destruct (neighbours adj u); [|done]. apply IH; [done|lia].
Qed.

Lemma safeSums_positive fd : safeSums fd → positiveWeights fd.
Proof. intros Hs a b w Hin. by destruct (Hs a b w Hin). Qed.

(** With positive weights the search loop has ended after [searchFuel]
    turns, by returning or, from a start found on the prototype only, by
    throwing. *)
Lemma dijkstraLoop_ends fd startId hazSnap adj :
  positiveWeights fd → passable hazSnap startId →
  buildAdjacency fd hazSnap = Returned adj →
  dijkstraLoop (searchFuel fd) hazSnap adj
    {| dist := <[startId := Fin 0]> (initDist (allIds fd)); prev := initPrev (allIds fd);
       pq := [(startId, 0)] |} ≠ OutOfFuel.
Proof.
  intros Hw Hp Hadj.
  destruct (buildAdjacency_spec _ _ _ Hadj) as (Hdom & _ & _).
  destruct (adj !! startId) as [l0|] eqn:Hs0;
    [assert (declared fd startId) as Hd by (apply Hdom; by eexists)
    |destruct (inherited startId) eqn:Hi].
  - destruct (dijkstra_returns (searchFuel fd) fd startId hazSnap) as (D & P & HD); [|lia|].
    + intros _. split; [by eexists|]. split; [by left|].
      intros u c v w _ [[H|H] _]; apply Hw in H; lia.
    + unfold dijkstra in HD. rewrite Hp, Hadj in HD.
      apply bind_Returned in HD as (adj' & [= <-] & HD). by rewrite HD.
  - unfold searchFuel. by rewrite dijkstraLoop_inherited.
  - destruct (dijkstra_returns (searchFuel fd) fd startId hazSnap) as (D & P & HD); [|lia|].
    + intros _. split; [by eexists|]. split; [by right|].
      intros u c v w _ [[H|H] _]; apply Hw in H; lia.
    + unfold dijkstra in HD. rewrite Hp, Hadj in HD.
      apply bind_Returned in HD as (adj' & [= <-] & HD). by rewrite HD.
Qed.

(** On a floor with safe sums the search on doubles is the search on
    integers, whatever the fuel. *)
Lemma dijkstraF_exact fuel fd startId hazSnap :
  safeSums fd → dijkstraF fuel fd startId hazSnap = dijkstra fuel fd startId hazSnap.
Proof.
  intros Hs. unfold dijkstraF, dijkstra.
  destruct (nodeIsHazardous startId hazSnap) eqn:Hp; [done|].
  destruct (buildAdjacency fd hazSnap) as [adj| |] eqn:Hadj; [|done..]. cbn.
  destruct (buildAdjacency_spec _ _ _ Hadj) as (_ & _ & Hedges).
  set (n := Z.of_nat (searchFuel fd)). set (W := 2 ^ 53 `div` n).
  assert (0 < n) as Hn by (unfold n, searchFuel; lia).
  assert (0 ≤ W ∧ n * W ≤ 2 ^ 53) as [HW HnW].
  { unfold W. split; [apply Z.div_pos; lia|apply Z.mul_div_le; lia]. }
  assert (∀ u l v w, adj !! u = Some l → (v, w) ∈ l → 0 ≤ w ≤ W) as Hle.
  { intros u l v w Hu Hin. apply (Hedges u l Hu) in Hin as [Hj _].
    assert (0 < w ∧ w * n ≤ 2 ^ 53) as [H0 H1] by (destruct Hj as [H|H]; by apply Hs in H).
    split; [lia|]. unfold W. apply Z.div_le_lower_bound; lia. }
  assert (∀ k, (k ≤ searchFuel fd)%nat →
            dijkstraLoopF k hazSnap adj
              {| dist := <[startId := Fin 0]> (initDist (allIds fd));
                 prev := initPrev (allIds fd); pq := [(startId, 0)] |}
            = dijkstraLoop k hazSnap adj
                {| dist := <[startId := Fin 0]> (initDist (allIds fd));
                   prev := initPrev (allIds fd); pq := [(startId, 0)] |}) as Hlock.
  { intros k Hk. apply (dijkstraLoopF_exact W _ _ HW Hle k _ 0).
    - intros v c [= -> ->]%list_elem_of_singleton. simpl. lia.
    - assert (Z.of_nat k * W ≤ n * W) by (apply Z.mul_le_mono_nonneg_r; [done|unfold n; lia]).
      lia. }
  destruct (decide (fuel ≤ searchFuel fd)%nat) as [Hfuel|Hfuel]; [by apply Hlock|].
  pose proof (dijkstraLoop_ends fd startId hazSnap adj (safeSums_positive _ Hs) Hp Hadj)
    as Hend.
  rewrite (dijkstraLoop_more _ _ (searchFuel fd) fuel) by (done || lia).
  rewrite (dijkstraLoopF_more _ _ (searchFuel fd) fuel);
    [by apply Hlock| |lia].
  by rewrite Hlock.
Qed.

Lemma routeFromF_exact fuel fd startId hazSnap :
  safeSums fd → routeFromF fuel fd startId hazSnap = routeFrom fuel fd startId hazSnap.
Proof. intros Hs. unfold routeFromF, routeFrom. by rewrite dijkstraF_exact. Qed.

Lemma findRouteF_at fuel bldg st fd :
  bldg !! floor st = Some fd → safeSums fd →
  findRouteF fuel bldg st = findRoute fuel bldg st.
Proof.
  intros Hfd Hs. unfold findRouteF, findRoute. destruct (pos st) as [p|]; [|done].
  destruct (truthy p); [|done]. rewrite Hfd. by apply routeFromF_exact.
Qed.

(** On floors with safe sums, the arithmetic of doubles changes nothing:
    the search and the whole of [findRoute] give what they give with sums
    of integers, for every fuel. *)
Theorem doubles_agree fd :
  safeSums fd →
  (∀ fuel startId hazSnap,
     dijkstraF fuel fd startId hazSnap = dijkstra fuel fd startId hazSnap) ∧
  (∀ fuel bldg st, bldg !! floor st = Some fd →
     findRouteF fuel bldg st = findRoute fuel bldg st).
Proof.
  intros Hs. split.
  - intros fuel startId hazSnap. by apply dijkstraF_exact.
  - intros fuel bldg st Hfd. by apply findRouteF_at with fd.
Qed.

Lemma GF_safeSums : safeSums GF.
Proof.
  intros a b w Hin. unfold GF, edges in Hin.
  repeat (apply elem_of_cons in Hin as [ [= -> -> ->] | Hin ];
          [split; [lia|by vm_compute]|]).
  by apply elem_of_nil in Hin.
Qed.

Lemma doubles_agree_witness :
  findRouteF 40 BLDG (onGF (Some "main_hall") {["entrance" := "smoke"]})
  = findRoute 40 BLDG (onGF (Some "main_hall") {["entrance" := "smoke"]}).
Proof.
  destruct (doubles_agree GF GF_safeSums) as [_ H]. by apply H.
Defined.















(** From a start without an entry in [adj] the loop relaxes no edge, so
    that no sum is formed. *)
Lemma dijkstraLoopF_isolated fuel hazSnap (adj : adjacency) startId D0 P0 :
  adj !! startId = None →
  dijkstraLoopF fuel hazSnap adj
    {| dist := <[startId := Fin 0]> D0; prev := P0; pq := [(startId, 0)] |}
  = dijkstraLoop fuel hazSnap adj
      {| dist := <[startId := Fin 0]> D0; prev := P0; pq := [(startId, 0)] |}.
Proof.
  intros Hnone. destruct fuel as [|fuel]; [done|].
  cbn [dijkstraLoopF dijkstraLoop pq extractMin scanMin dist prev].
  change ((λ e, (e, delete 0%nat [(startId, 0)])) <$> [(startId, 0)] !! 0%nat)
    with (Some ((startId, 0), @nil (string * Z))).
  cbn beta iota. unfold neighbours. rewrite lookup_insert_eq, Hnone.
  cbn [gtAt num_ltb]. rewrite Z.ltb_irrefl.
  destruct (nodeIsHazardous startId hazSnap); [by destruct fuel|].
  destruct (inherited startId); [done|]. cbn [foldl]. by destruct fuel.
Qed.

Lemma findRouteF_undeclared fuel bldg st fd startId :
  pos st = Some startId → bldg !! floor st = Some fd → ¬ declared fd startId →
  findRouteF fuel bldg st = findRoute fuel bldg st.
Proof.
  intros Hpos Hfd Hnew. unfold findRouteF, findRoute. rewrite Hpos, Hfd.
  destruct (truthy startId); [|done]. unfold routeFromF, routeFrom.
  assert (dijkstraF fuel fd startId (snapshotHazards st)
          = dijkstra fuel fd startId (snapshotHazards st)) as ->; [|done].
  unfold dijkstraF, dijkstra. destruct (nodeIsHazardous _ _); [done|].
  destruct (buildAdjacency fd (snapshotHazards st)) as [adj| |] eqn:Hadj; [|done..]. cbn.
  apply dijkstraLoopF_isolated.
  destruct (buildAdjacency_spec _ _ _ Hadj) as (Hdom & _).
  apply eq_None_not_Some. by rewrite Hdom.
Qed.

(** C10 (unknown start), where the code fails.  A start id that is not
    declared on the floor but names a member of [Object.prototype], and
    that is passable, makes [findRoute] throw: [adj[u] || []] finds the
    inherited member, which [for ... of] cannot iterate.  (For every other
    undeclared start [unknown_start_null] shows that no-route is
    returned.) *)
Theorem C10_inherited_start fuel bldg st fd startId :
  pos st = Some startId → bldg !! floor st = Some fd →
  endpointsDeclared fd → ¬ declared fd startId → inherited startId = true →
  passable (snapshotHazards st) startId → (1 ≤ fuel)%nat →
  findRouteF fuel bldg st = Thrown.
Proof.
  intros Hpos Hfd Hdecl Hnew Hinh Hp Hfuel.
  rewrite (findRouteF_undeclared fuel bldg st fd startId) by done.
  by apply (inherited_start_throws fuel bldg st fd startId).
Qed.

Lemma C10_failing_input : findRouteF 1 BLDG (onGF (Some "toString") ∅) = Thrown.
Proof.
  apply (C10_inherited_start 1 BLDG (onGF (Some "toString") ∅) GF "toString").
  - reflexivity.
  - reflexivity.
  - apply GF_endpointsDeclared.
  - unfold declared. vm_compute. set_solver.
  - reflexivity.
  - reflexivity.
  - lia.
Defined.

(** An undeclared start whose name is found nowhere is handled as the
    source intends: [adj[u] || []] is the empty list, the loop ends after
    one turn, no exit has a finite distance, and no-route is returned. *)
Theorem unknown_start_null fuel bldg st fd startId :
  pos st = Some startId → startId ≠ "" → bldg !! floor st = Some fd →
  endpointsDeclared fd → ¬ declared fd startId → ordinaryKey startId → (1 ≤ fuel)%nat →
  findRouteF fuel bldg st = Returned None.
Proof.
  intros Hpos Hne Hfd Hdecl Hnew Hord Hfuel.
  rewrite (findRouteF_undeclared fuel bldg st fd startId) by done.
  by apply (unknown_start_returns fuel bldg st fd startId).
Qed.

Lemma unknown_start_null_witness :
  findRouteF 1 BLDG (onGF (Some "attic") ∅) = Returned None.
Proof.
  apply (unknown_start_null 1 BLDG (onGF (Some "attic") ∅) GF "attic").
  - reflexivity.
  - discriminate.
  - reflexivity.
  - apply GF_endpointsDeclared.
  - unfold declared. vm_compute. set_solver.
  - reflexivity.
  - lia.
Defined.

(** * No-route reasons *)





(** * Totality *)



(** * What no rounding touches *)

Lemma routeFromF_Some fuel fd startId hazSnap r :
  routeFromF fuel fd startId hazSnap = Returned (Some r) →
  contaminated hazSnap (path r) = false ∧
  ∃ e, e ∈ exits fd ∧ openExit hazSnap e ∧ exitId r = Exit.id e ∧
       mkPath fuel (tablesOf (dijkstraF fuel fd startId hazSnap)).2 (Exit.id e)
       = Returned (path r).
Proof.
  unfold routeFromF. simpl.
  intros ([D P] & HD & (best & Hbest & Hres)%bind_Returned)%bind_Returned.
  destruct best as [b|]; [|done].
  destruct (contaminated hazSnap (path b)) eqn:Hc; [done|]. injection Hres as ->.
  split; [done|].
  apply pickExits_spec in Hbest as ([[=]|(b' & [= <-] & e & He & Ho & Hid & _ & Hp)] & _).
  exists e. rewrite HD. by repeat split.
Qed.

(** The guards against hazards do not depend on the arithmetic: whatever
    the weights, a route that the code on doubles returns has no
    impassable node between its two ends, leads to an exit of the floor
    that is not exit-blocked, and its path ends at that exit. *)
Theorem findRouteF_guards fuel bldg st r :
  findRouteF fuel bldg st = Returned (Some r) →
  (∀ i n, (0 < i)%nat → (S i < length (path r))%nat → path r !! i = Some n →
          ¬ impassableKind (orEmpty (snapshotHazards st !! n))) ∧
  ∃ fd e, bldg !! floor st = Some fd ∧ e ∈ exits fd ∧ exitId r = Exit.id e ∧
          openExit (snapshotHazards st) e ∧ last (path r) = Some (Exit.id e).
Proof.
  unfold findRouteF. destruct (pos st) as [p|]; [|done]. destruct (truthy p); [|done].
  destruct (bldg !! floor st) as [fd|]; [|done].
  intros (Hclean & e & He & Ho & Hid & Hpath)%routeFromF_Some. split.
  - intros i n Hi Hlen Hn. apply contaminated_false in Hclean. apply passable_iff.
    eapply Forall_forall; [done|]. by eapply interior_lookup.
  - exists fd, e. repeat split; try done.
    apply mkPath_chain in Hpath. by eapply chain_last.
Qed.

Lemma findRouteF_guards_witness :
  ∃ fd e, farBldg !! floor (onFar "tie") = Some fd ∧ e ∈ exits fd ∧
          exitId {| exitId := "e2"; d := 2 ^ 53 + 2; path := ["s"; "a"; "b"; "e2"] |}
          = Exit.id e ∧
          openExit (snapshotHazards (onFar "tie")) e ∧
          last ["s"; "a"; "b"; "e2"] = Some (Exit.id e).
Proof.
  destruct (findRouteF_guards 11 farBldg (onFar "tie")
              {| exitId := "e2"; d := 2 ^ 53 + 2; path := ["s"; "a"; "b"; "e2"] |})
    as [_ H]; [by vm_compute|exact H].
Defined.

(** * The hazard store *)

Lemma haz_setHaz st id v :
  haz (setHaz st id v)
  = <[floor st := if truthy v then <[id := v]> (snapshotHazards st)
                  else delete id (snapshotHazards st)]> (haz st).
Proof.
  unfold setHaz, snapshotHazards. simpl.
  destruct (haz st !! floor st) as [m|] eqn:Hf; simpl.
  - rewrite Hf. simpl. by destruct (truthy v).
  - rewrite lookup_insert_eq. simpl. destruct (truthy v); by rewrite insert_insert_eq.
Qed.

Lemma snapshot_after_setHaz st id v :
  snapshotHazards (setHaz st id v)
  = if truthy v then <[id := v]> (snapshotHazards st) else delete id (snapshotHazards st).
Proof.
  unfold snapshotHazards at 1. rewrite haz_setHaz.
  change (floor (setHaz st id v)) with (floor st). by rewrite lookup_insert_eq.
Qed.

Lemma getHaz_snapshot st id :
  getHaz st id = match snapshotHazards st !! id with
                 | Some v => Str v
                 | None => if inherited id then Member else Str ""
                 end.
Proof. done. Qed.

Lemma getHaz_ordinary st id :
  ordinaryKey id → getHaz st id = Str (orEmpty (snapshotHazards st !! id)).
Proof.
  intros Hid. rewrite getHaz_snapshot. destruct (snapshotHazards st !! id); [done|].
  unfold ordinaryKey in Hid. by rewrite Hid.
Qed.


(** [setHaz] touches one key of one floor: the selected floor and position,
    the hazards of every other node of the floor and the whole map of
    every other floor stay as they were. *)
Theorem setHaz_frame st id v :
  floor (setHaz st id v) = floor st ∧
  pos (setHaz st id v) = pos st ∧
  (∀ id', id' ≠ id → getHaz (setHaz st id v) id' = getHaz st id') ∧
  (∀ f, f ≠ floor st → haz (setHaz st id v) !! f = haz st !! f).
Proof.
  split; [done|]. split; [done|]. split.
  - intros id' Hne. rewrite !getHaz_snapshot, snapshot_after_setHaz.
    destruct (truthy v); [by rewrite lookup_insert_ne|by rewrite lookup_delete_ne].
  - intros f Hne. rewrite haz_setHaz. by rewrite lookup_insert_ne.
Qed.

Lemma setHaz_keeps_clean st id v : cleanStore st → cleanStore (setHaz st id v).
Proof.
  intros Hclean f m id' v' Hf Hm. rewrite haz_setHaz in Hf.
  destruct (decide (f = floor st)) as [->|Hne].
  - rewrite lookup_insert_eq in Hf. injection Hf as <-.
    assert (∀ x, snapshotHazards st !! id' = Some x → x ≠ "") as Hold.
    { intros x Hx. unfold snapshotHazards in Hx.
      destruct (haz st !! floor st) as [m0|] eqn:Hm0; [by eapply Hclean|done]. }
    unfold truthy in Hm. case_bool_decide as Hv; simpl in Hm.
    + apply lookup_delete_Some in Hm as [_ Hm]. by apply Hold.
    + apply lookup_insert_Some in Hm as [[_ <-]|[_ Hm]]; [done|by apply Hold].
  - rewrite lookup_insert_ne in Hf by done. by eapply Hclean.
Qed.

(** [setHaz] never stores an empty value, so with it [getHaz] reads
    something else than [''] exactly at the keys that are present on the
    floor and at the inherited names. *)
Theorem setHaz_clean st id v :
  cleanStore st → ordinaryKey (floor st) → ordinaryKey id →
  cleanStore (setHaz st id v) ∧
  ∀ id', is_Some (snapshotHazards (setHaz st id v) !! id') ∨ inherited id' = true
         ↔ getHaz (setHaz st id v) id' ≠ "".
Proof.
  intros Hclean _ _. pose proof (setHaz_keeps_clean st id v Hclean) as Hclean'.
  split; [done|]. intros id'. rewrite getHaz_snapshot.
  destruct (snapshotHazards (setHaz st id v) !! id') as [x|] eqn:Hx; simpl.
  - split; [|eauto]. intros _. unfold snapshotHazards in Hx.
    destruct (haz (setHaz st id v) !! floor (setHaz st id v)) as [m|] eqn:Hm; [|done].
    intros [= ->]. by eapply Hclean'.
  - destruct (inherited id'); [split; [done|by right]|].
    split; [|done]. by intros [[? [=]]|?].
Qed.

Lemma initialState_clean : cleanStore initialState.
Proof. intros f m id v Hf. simpl in Hf. by rewrite lookup_empty in Hf. Qed.

Lemma setHaz_clean_witness :
  cleanStore (setHaz initialState "kitchen" "smoke") ∧
  ∀ id', is_Some (snapshotHazards (setHaz initialState "kitchen" "smoke") !! id') ∨
         inherited id' = true
         ↔ getHaz (setHaz initialState "kitchen" "smoke") id' ≠ "".
Proof.
  apply (setHaz_clean initialState "kitchen" "smoke");
    [apply initialState_clean|reflexivity|reflexivity].
Defined.

Lemma State_eq (s1 s2 : State) :
  floor s1 = floor s2 → pos s1 = pos s2 → haz s1 = haz s2 → s1 = s2.
Proof. destruct s1, s2. simpl. by intros -> -> ->. Qed.

(** The last write to a node wins, and writes to different nodes can be
    swapped, as far as the entries go: both sequences of writes leave the
    same floor, position and marks, whatever is read afterwards.  (The
    order in which the keys of the floor are enumerated is no part of the
    state here: a key that is deleted and set again moves to the end of
    that order.) *)
Theorem setHaz_compose st id id' v v' :
  ordinaryKey (floor st) → ordinaryKey id → ordinaryKey id' →
  (∀ x, getHaz (setHaz (setHaz st id v) id v') x = getHaz (setHaz st id v') x) ∧
  (id ≠ id' →
   ∀ x, getHaz (setHaz (setHaz st id v) id' v') x
        = getHaz (setHaz (setHaz st id' v') id v) x).
Proof.
  intros _ _ _.
  assert (setHaz (setHaz st id v) id v' = setHaz st id v') as Hlast.
  { apply State_eq; [done..|]. rewrite !haz_setHaz, snapshot_after_setHaz.
    change (floor (setHaz st id v)) with (floor st). rewrite insert_insert_eq. f_equal.
    destruct (truthy v), (truthy v'); apply map_eq; intros k;
      destruct (decide (k = id)) as [->|Hne];
      rewrite ?lookup_insert_eq, ?lookup_delete_eq, ?lookup_insert_ne, ?lookup_delete_ne,
              ?lookup_insert_ne, ?lookup_delete_ne by done; done. }
  split; [intros x; by rewrite Hlast|].
  intros Hne x. f_equal. apply State_eq; [done..|].
  rewrite !haz_setHaz, !snapshot_after_setHaz.
  change (floor (setHaz st id v)) with (floor st).
  change (floor (setHaz st id' v')) with (floor st). rewrite !insert_insert_eq. f_equal.
  destruct (truthy v), (truthy v'); apply map_eq; intros k;
    destruct (decide (k = id)) as [Hk|Hk], (decide (k = id')) as [Hk'|Hk'];
    simplify_eq;
    repeat first [ rewrite lookup_insert_eq | rewrite lookup_delete_eq
                 | rewrite lookup_insert_ne by done | rewrite lookup_delete_ne by done ];
    done.
Qed.

Lemma setHaz_compose_witness :
  getHaz (setHaz (setHaz initialState "kitchen" "") "kitchen" "fire") "kitchen"
  = getHaz (setHaz initialState "kitchen" "fire") "kitchen" ∧
  getHaz (setHaz (setHaz initialState "kitchen" "fire") "washroom" "smoke") "kitchen"
  = getHaz (setHaz (setHaz initialState "washroom" "smoke") "kitchen" "fire") "kitchen".
Proof.
  split.
  - destruct (setHaz_compose initialState "kitchen" "washroom" "" "fire") as [H _];
      [reflexivity..|]. apply H.
  - destruct (setHaz_compose initialState "kitchen" "washroom" "fire" "smoke") as [_ H];
      [reflexivity..|]. by apply H.
Defined.

Lemma setHaz_frame_witness :
  getHaz (setHaz initialState "kitchen" "fire") "washroom" = getHaz initialState "washroom".
Proof.
  destruct (setHaz_frame initialState "kitchen" "fire") as (_ & _ & H & _).
  by apply H.
Defined.

(** * The adjacency table *)



Lemma addEdges_outcome hazSnap es : ∀ adj,
  (∃ adj', addEdges hazSnap es adj = Returned adj') ∨
  (addEdges hazSnap es adj = Thrown ∧
   ∃ a b w, (a, b, w) ∈ es ∧ passable hazSnap a ∧ passable hazSnap b ∧
            ¬ (is_Some (adj !! a) ∧ is_Some (adj !! b))).
Proof.
  induction es as [|[[a b] w] es IH]; intros adj; cbn [addEdges]; [left; eauto|].
  assert ((∃ adj1, addEdge hazSnap adj (a, b, w) = Returned adj1) ∨
          (addEdge hazSnap adj (a, b, w) = Thrown ∧
           passable hazSnap a ∧ passable hazSnap b ∧
           ¬ (is_Some (adj !! a) ∧ is_Some (adj !! b)))) as [[adj1 H1]|(H1 & Ha & Hb & Hbad)].
  { unfold addEdge. destruct (nodeIsHazardous a hazSnap) eqn:Ha; simpl; [left; eauto|].
    destruct (nodeIsHazardous b hazSnap) eqn:Hb; simpl; [left; eauto|].
    destruct (adj !! a) as [la|] eqn:Hla.
    - destruct (decide (a = b)) as [->|Hne].
      + rewrite lookup_insert_eq. left; eauto.
      + rewrite lookup_insert_ne by done. destruct (adj !! b) as [lb|] eqn:Hlb.
        * left; eauto.
        * right. repeat split; try done. by intros [_ [? [=]]].
    - right. repeat split; try done. by intros [[? [=]] _]. }
  - rewrite H1. cbn. destruct (IH adj1) as [?|(H2 & a' & b' & w' & Hin & Ha' & Hb' & Hbad)];
      [by left|right].
    split; [done|]. exists a', b', w'. split; [apply elem_of_cons; by right|].
    split; [done|]. split; [done|].
    apply addEdge_spec in H1 as (Hdom & _). by rewrite <- !Hdom.
  - rewrite H1. cbn. right. split; [done|]. exists a, b, w.
    split; [apply elem_of_cons; by left|done].
Qed.

(** [buildAdjacency] throws exactly when some edge has two passable ends of
    which one is not a declared node (its list is [undefined] at the
    [push]); an edge with an impassable end is skipped before its ends are
    looked up. *)
Theorem buildAdjacency_throws fd hazSnap :
  buildAdjacency fd hazSnap = Thrown ↔
  ∃ a b w, (a, b, w) ∈ edges fd ∧ passable hazSnap a ∧ passable hazSnap b ∧
           ¬ (declared fd a ∧ declared fd b).
Proof.
  assert (∀ u, is_Some (foldl (λ adj n, <[n := []]> adj)
                (∅ : adjacency) (allIds fd) !! u) ↔ declared fd u) as D0.
  { intros u. rewrite init_table_lookup, lookup_empty. unfold declared.
    destruct (decide (u ∈ allIds fd)) as [H|H]; split; eauto.
    - intros [? [=]].
    - by intros ?%H. }
  split.
  - unfold buildAdjacency. intros Hthrown.
    destruct (addEdges_outcome hazSnap (edges fd)
                (foldl (λ adj n, <[n := []]> adj) ∅ (allIds fd)))
      as [[adj' H]|(_ & a & b & w & Hin & Ha & Hb & Hbad)]; [congruence|].
    exists a, b, w. by rewrite <- !D0.
  - intros (a & b & w & Hin & Ha & Hb & Hbad).
    unfold buildAdjacency.
    destruct (addEdges_outcome hazSnap (edges fd)
                (foldl (λ adj n, <[n := []]> adj) ∅ (allIds fd)))
      as [[adj' H]|(H & _)]; [|done].
    destruct (buildAdjacency_spec hazSnap fd adj' H) as (_ & Hdecl & _).
    destruct Hbad. split.
    + apply (Hdecl a b w). split; [by left|done].
    + apply (Hdecl b a w). split; [by right|done].
Qed.

Lemma buildAdjacency_throws_witness :
  buildAdjacency looseEnd ∅ = Thrown ∧
  ∃ adj, buildAdjacency looseEnd {["annex" := "closed"]} = Returned adj.
Proof.
  split; [|by eexists].
  apply (buildAdjacency_throws looseEnd ∅). exists "hall", "annex", 1.
  split; [unfold looseEnd; simpl; set_solver|]. split; [done|]. split; [done|].
  intros [_ H]. unfold declared in H. vm_compute in H. set_solver.
Defined.

(** * Extracting the minimum *)

Lemma scanMin_first rest : ∀ pre i minIdx x,
  length pre = i → pre !! minIdx = Some x →
  (∀ k z, (k < minIdx)%nat → pre !! k = Some z → x.2 < z.2) →
  (∀ z, z ∈ pre → x.2 ≤ z.2) →
  ∃ y, (pre ++ rest) !! scanMin rest i minIdx x.2 = Some y ∧
       (∀ k z, (k < scanMin rest i minIdx x.2)%nat → (pre ++ rest) !! k = Some z → y.2 < z.2) ∧
       ∀ z, z ∈ pre ++ rest → y.2 ≤ z.2.
Proof.
  induction rest as [|[n c] rest IH]; intros pre i minIdx x Hlen Hx Hbefore Hall; simpl.
  - exists x. rewrite app_nil_r. done.
  - destruct (Z.ltb_spec c x.2) as [Hlt|Hge].
    + destruct (IH (pre ++ [(n, c)]) (S i) i (n, c)) as (y & Hy & Hb & Ha).
      * rewrite length_app. simpl. lia.
      * rewrite lookup_app_r by lia. by replace (i - length pre)%nat with 0%nat by lia.
      * intros k z Hk Hz. rewrite lookup_app_l in Hz by lia. simpl.
        apply list_elem_of_lookup_2 in Hz. apply Hall in Hz. lia.
      * intros z [Hz | ->%list_elem_of_singleton]%elem_of_app; simpl; [|lia].
        apply Hall in Hz. lia.
      * exists y. rewrite <- app_assoc in Hy, Hb, Ha. done.
    + destruct (IH (pre ++ [(n, c)]) (S i) minIdx x) as (y & Hy & Hb & Ha).
      * rewrite length_app. simpl. lia.
      * rewrite lookup_app_l; [done|]. by eapply lookup_lt_Some.
      * intros k z Hk Hz. apply (Hbefore k z Hk).
        rewrite lookup_app_l in Hz; [done|]. apply lookup_lt_Some in Hx. lia.
      * intros z [Hz | ->%list_elem_of_singleton]%elem_of_app; simpl; [by apply Hall|lia].
      * exists y. rewrite <- app_assoc in Hy, Hb, Ha. done.
Qed.

(** [extractMin] takes out the first entry whose [d] is least: the queue
    splits around it into entries with a strictly larger [d] before it and
    entries with a [d] at least as large after it, and what is left is the
    queue without it, in the same order.  Only the empty queue gives
    nothing. *)
Theorem extractMin_first q :
  (extractMin q = None ↔ q = []) ∧
  ∀ e rest, extractMin q = Some (e, rest) →
    ∃ l1 l2, q = l1 ++ e :: l2 ∧ rest = l1 ++ l2 ∧
             (∀ z, z ∈ l1 → e.2 < z.2) ∧ (∀ z, z ∈ l2 → e.2 ≤ z.2).
Proof.
  split; [split; [apply extractMin_None|by intros ->]|].
  intros e rest. destruct q as [|[n c] q']; [done|]. unfold extractMin.
  destruct (scanMin_first q' [(n, c)] 1 0 (n, c)) as (y & Hy & Hb & Ha); try done.
  { intros k z Hk. lia. }
  { intros z ->%list_elem_of_singleton. done. }
  simpl in Hy, Hb, Ha. simpl. rewrite Hy. simpl. intros [= <- <-].
  set (j := scanMin q' 1 0 c) in *.
  exists (take j ((n, c) :: q')), (drop (S j) ((n, c) :: q')).
  split; [|split; [|split]].
  - by rewrite <- (take_drop_middle _ _ _ Hy) at 1.
  - apply delete_take_drop.
  - intros z (k & Hz & Hk)%elem_of_take. by eapply Hb.
  - intros z Hz%subseteq_drop. by apply Ha.
Qed.

Lemma extractMin_first_witness :
  ∃ l1 l2, [("a", 3); ("b", 1); ("c", 2); ("d", 1)] = l1 ++ ("b", 1) :: l2 ∧
           [("a", 3); ("c", 2); ("d", 1)] = l1 ++ l2 ∧
           (∀ z, z ∈ l1 → ("b", 1).2 < z.2) ∧ (∀ z, z ∈ l2 → ("b", 1).2 ≤ z.2).
Proof.
  destruct (extractMin_first [("a", 3); ("b", 1); ("c", 2); ("d", 1)]) as [_ H].
  by apply H.
Defined.

(** * The tables of [dijkstra] *)











(** * Hazards the search does not see *)

Section SameHazards.
Context (s1 s2 : gmap string string).
Hypothesis same : ∀ u, nodeIsHazardous u s1 = nodeIsHazardous u s2.




End SameHazards.



(** * Path reconstruction on any [prev] table *)

Lemma chain_det P cur l : chain P cur l → ∀ l', chain P cur l' → l = l'.
Proof.
  induction 1 as [|c next l Hc Hch IH]; intros l' H'.
  - by inversion H'.
  - inversion H' as [|c' next' l0 Hc' Hch']; subst.
    rewrite Hc in Hc'. injection Hc' as <-. f_equal. by apply IH.
Qed.

Lemma chain_split P cur l :
  chain P cur l → ∀ x, x ∈ l → ∃ l1 l2, chain P (Some x) l1 ∧ l = l1 ++ l2.
Proof.
  induction 1 as [|c next l Hc Hch IH]; intros x Hx.
  - by apply elem_of_nil in Hx.
  - apply elem_of_app in Hx as [Hx | ->%list_elem_of_singleton].
    + destruct (IH x Hx) as (l1 & l2 & H1 & ->). exists l1, (l2 ++ [c]).
      split; [done|]. by rewrite app_assoc.
    + exists (l ++ [c]), []. split; [by econstructor|by rewrite app_nil_r].
Qed.

Lemma chain_NoDup P cur l : chain P cur l → NoDup l.
Proof.
  induction 1 as [|c next l Hc Hch IH]; [constructor|].
  apply NoDup_app. split; [done|]. split; [|apply NoDup_singleton].
  intros x Hx ->%list_elem_of_singleton.
  destruct (chain_split _ _ _ Hch _ Hx) as (l1 & l2 & H1 & ->).
  assert (chain P (Some c) ((l1 ++ l2) ++ [c])) as H2 by by econstructor.
  apply (chain_det _ _ _ H1) in H2. apply (f_equal length) in H2.
  rewrite !length_app in H2. simpl in H2. lia.
Qed.

Lemma chain_links P cur l :
  chain P cur l →
  match cur with Some c => last l = Some c | None => l = [] end ∧
  (∀ h, head l = Some h → P !! h = Some None) ∧
  ∀ i a b, l !! i = Some a → l !! S i = Some b → P !! b = Some (Some a).
Proof.
  induction 1 as [|c next l Hc Hch (Hlast & Hhead & Hlink)].
  - split; [done|]. split; [done|]. intros i a b Ha. by rewrite lookup_nil in Ha.
  - split; [by rewrite last_snoc|]. split.
    + intros h Hh. destruct l as [|x l]; [|by apply Hhead].
      simpl in Hh. injection Hh as <-. destruct next as [n|]; [done|by rewrite Hc].
    + intros i a b Ha Hb.
      destruct (decide (S i < length l)%nat) as [Hlt|Hge].
      * rewrite lookup_app_l in Ha, Hb by lia. by eapply Hlink.
      * pose proof (lookup_lt_Some _ _ _ Hb) as Hi. rewrite length_app in Hi. simpl in Hi.
        assert (S i = length l) as Heq by lia.
        rewrite lookup_app_r in Hb by lia. rewrite lookup_app_l in Ha by lia.
        replace (S i - length l)%nat with 0%nat in Hb by lia. injection Hb as <-.
        destruct next as [n|]; [|subst l; simpl in Heq; lia].
        rewrite last_lookup in Hlast. rewrite <- Heq in Hlast. simpl in Hlast.
        rewrite Ha in Hlast. injection Hlast as ->. done.
Qed.

Lemma mkPathFrom_length fuel P : ∀ cur acc p,
  mkPathFrom fuel P cur acc = Returned p → (length p ≤ fuel + length acc)%nat.
Proof.
  induction fuel as [|fuel IH]; intros [c|] acc p; simpl; try done.
  - intros [= <-]. lia.
  - destruct (P !! c) as [next|]; [|done]. intros H%IH. simpl in H. lia.
  - intros [= <-]. lia.
Qed.

(** Whatever the table [prev] holds, a path that [mkPath] returns ends at
    [endId], starts at a node whose [prev] is [null], steps from each
    node to the one whose [prev] it is, visits no node twice and is no
    longer than the fuel spent. *)
Theorem mkPath_structure fuel P e p :
  mkPath fuel P e = Returned p →
  last p = Some e ∧ NoDup p ∧ (length p ≤ fuel)%nat ∧
  (∃ h, head p = Some h ∧ P !! h = Some None) ∧
  ∀ i a b, p !! i = Some a → p !! S i = Some b → P !! b = Some (Some a).
Proof.
  intros Hp. pose proof (mkPath_chain _ _ _ _ Hp) as Hch.
  destruct (chain_links _ _ _ Hch) as (Hlast & Hhead & Hlink).
  split; [done|]. split; [by eapply chain_NoDup|]. split.
  { apply mkPathFrom_length in Hp. simpl in Hp. lia. }
  split; [|done]. destruct p as [|h p]; [done|]. exists h. split; [done|]. by apply Hhead.
Qed.

Lemma mkPath_structure_witness :
  last ["hall"; "lab"; "door"] = Some "door" ∧ NoDup ["hall"; "lab"; "door"] ∧
  (length ["hall"; "lab"; "door"] ≤ 5)%nat ∧
  (∃ h, head ["hall"; "lab"; "door"] = Some h ∧
        ({["hall" := None; "lab" := Some "hall"; "door" := Some "lab"]}
           : gmap string (option string)) !! h = Some None) ∧
  ∀ i a b, ["hall"; "lab"; "door"] !! i = Some a → ["hall"; "lab"; "door"] !! S i = Some b →
    ({["hall" := None; "lab" := Some "hall"; "door" := Some "lab"]}
       : gmap string (option string)) !! b = Some (Some a).
Proof.
  apply (mkPath_structure 5
           {["hall" := None; "lab" := Some "hall"; "door" := Some "lab"]} "door").
  vm_compute. reflexivity.
Defined.

(** The loop of [mkPath] ends on [null] only.  From a set of nodes in
    which the entry of every node is again a node of the set (a cycle of
    [prev]) no path is ever returned, whatever the number of turns. *)
Theorem mkPath_never_returns P (stuck : string → Prop) :
  (∀ c, stuck c → ∃ n, P !! c = Some (Some n) ∧ stuck n) →
  ∀ fuel e l, stuck e → mkPath fuel P e ≠ Returned l.
Proof.
  intros Hclosed fuel e l He. unfold mkPath. generalize (@nil string) as acc. revert e He.
  induction fuel as [|fuel IH]; intros e He acc; simpl; [done|].
  destruct (Hclosed e He) as (n & -> & Hn). by apply IH.
Qed.

Lemma mkPath_never_returns_witness :
  mkPath 1000 {["a" := Some "b"; "b" := Some "a"]} "a" ≠ Returned ["b"; "a"].
Proof.
  apply (mkPath_never_returns {["a" := Some "b"; "b" := Some "a"]}
           (λ c, c = "a" ∨ c = "b")); [|by left].
  intros c [-> | ->]; [exists "b"|exists "a"]; split; auto.
Defined.

(** * Routes *)

Lemma findRoute_Some fuel bldg st r :
  findRoute fuel bldg st = Returned (Some r) →
  ∃ startId fd adj D P e,
    pos st = Some startId ∧ startId ≠ "" ∧ bldg !! floor st = Some fd ∧
    passable (snapshotHazards st) startId ∧
    buildAdjacency fd (snapshotHazards st) = Returned adj ∧
    Final fd (snapshotHazards st) startId adj D P ∧
    dijkstra fuel fd startId (snapshotHazards st) = Returned (D, P) ∧
    e ∈ exits fd ∧ openExit (snapshotHazards st) e ∧ exitId r = Exit.id e ∧
    D !! Exit.id e = Some (Fin (d r)) ∧ chain P (Some (Exit.id e)) (path r).
Proof.
  intros [[[=] _]|(s & fd & Hpos & Hne & Hfd & Hr)]%findRoute_Returned.
  apply routeFrom_Some in Hr as (D & P & HD & (e & He & Ho & Hid & Hd & Hpath) & _).
  apply mkPath_chain in Hpath.
  pose proof HD as [(_ & -> & _)|(Hp & adj & Hadj & HF)]%dijkstra_Returned.
  { rewrite initDist_lookup in Hd. by case_decide. }
  by exists s, fd, adj, D, P, e.
Qed.







Lemma walk_unit fd p c : unitWeights fd → walk fd p c → c = Z.of_nat (length p) - 1.
Proof.
  intros Hu. induction 1 as [|u v p w c Hj Hw IH]; [done|].
  assert (w = 1) as -> by (destruct Hj as [H|H]; by eapply Hu).
  cbn [length] in *. lia.
Qed.

Lemma unit_positive fd : unitWeights fd → positiveWeights fd.
Proof. intros Hu a b w Hin. apply Hu in Hin. lia. Qed.







(** * Routing after a change of the hazard store *)



(** * The building data ([js/data.js]) *)


Lemma BLDG_floors f fd : BLDG !! f = Some fd → fd ∈ [GF; F1; F2; F3; B].
Proof.
  unfold BLDG. intros H.
  repeat (apply lookup_insert_Some in H as [[_ <-]|[_ H]];
          [repeat first [apply list_elem_of_here | apply list_elem_of_further]|]).
  by rewrite lookup_empty in H.
Qed.

Lemma BLDG_wellformed fd :
  fd ∈ [GF; F1; F2; F3; B] →
  unitWeights fd ∧ endpointsDeclared fd ∧ (routeFuel fd ≤ 31)%nat.
Proof.
  intros Hfd.
  repeat (apply elem_of_cons in Hfd as [->|Hfd];
    [split; [|split];
      [intros a b w Hin; vm_compute in Hin;
       repeat (apply elem_of_cons in Hin as [ [= -> -> ->] | Hin ]; [reflexivity|]);
       by apply elem_of_nil in Hin
      |intros a b w Hin; unfold declared; vm_compute in Hin;
       repeat (apply elem_of_cons in Hin as [ [= -> -> ->] | Hin ];
               [split; apply (bool_decide_unpack _); vm_compute; reflexivity|]);
       by apply elem_of_nil in Hin
      |vm_compute; lia]|]).
  by apply elem_of_nil in Hfd.
Qed.

Lemma BLDG_safeSums fd : fd ∈ [GF; F1; F2; F3; B] → safeSums fd.
Proof.
  intros Hfd a b w Hin. destruct (BLDG_wellformed fd Hfd) as (Hu & _ & Hrf).
  rewrite (Hu a b w Hin). unfold routeFuel, searchFuel in Hrf. lia.
Qed.

Lemma BLDG_returns fuel st :
  is_Some (BLDG !! floor st) → posKnown BLDG st → (31 ≤ fuel)%nat →
  ∃ res, findRoute fuel BLDG st = Returned res.
Proof.
  intros [fd Hfd] Hknown Hfuel.
  destruct (BLDG_wellformed fd (BLDG_floors _ _ Hfd)) as (Hu & Hdecl & Hrf).
  unfold findRoute. destruct (pos st) as [p|] eqn:Hp; [|by eexists].
  destruct (truthy p); [|by eexists]. rewrite Hfd.
  apply routeFrom_returns; [by apply unit_positive|done|by eapply Hknown|lia].
Qed.

Lemma BLDG_hops fuel st :
  is_Some (BLDG !! floor st) → posKnown BLDG st → (31 ≤ fuel)%nat →
  ∃ res, findRoute fuel BLDG st = Returned res ∧
         ∀ r, res = Some r → d r = Z.of_nat (length (path r)) - 1.
Proof.
  intros Hfloor Hknown Hfuel.
  destruct (BLDG_returns fuel st Hfloor Hknown Hfuel) as [res Hres].
  destruct Hfloor as [fd Hfd].
  destruct (BLDG_wellformed fd (BLDG_floors _ _ Hfd)) as (Hu & Hdecl & Hrf).
  exists res. split; [done|]. intros r ->.
  pose proof Hres as (s & fd' & adj & D & P & e & Hpos' & Hne & Hfd' & Hp & Hadj & HF & HD
                      & He & Ho & Hid & Hd & Hch)%findRoute_Some.
  rewrite Hfd in Hfd'. injection Hfd' as <-.
  destruct (chain_route fd _ s adj D P HF (unit_positive _ Hu) _ _ Hch _ _ eq_refl Hd)
    as (Hwalk & _).
  by apply (walk_unit fd).
Qed.

(** On each of the five floors of the shipped building, whatever the
    hazards and for every position that is a node of the floor or a name
    found nowhere, [findRoute] returns once the fuel reaches 31: it
    neither throws nor runs on; and the distance of a route it returns is
    the number of hops of its path. *)
Theorem findRoute_BLDG fuel st :
  is_Some (BLDG !! floor st) → posKnown BLDG st → (31 ≤ fuel)%nat →
  ∃ res, findRouteF fuel BLDG st = Returned res ∧
         ∀ r, res = Some r → d r = Z.of_nat (length (path r)) - 1.
Proof.
  intros [fd Hfd] Hknown Hfuel.
  rewrite (findRouteF_at fuel BLDG st fd Hfd (BLDG_safeSums fd (BLDG_floors _ _ Hfd))).
  apply BLDG_hops; [by eexists|done..].
Qed.

Lemma findRoute_BLDG_witness :
  findRouteF 31 BLDG {| floor := "F2"; pos := Some "server"; haz := ∅ |}
  = Returned (Some {| exitId := "stairF2_exit"; d := 2;
                      path := ["server"; "stairF2"; "stairF2_exit"] |}) ∧
  d {| exitId := "stairF2_exit"; d := 2; path := ["server"; "stairF2"; "stairF2_exit"] |}
  = Z.of_nat (length ["server"; "stairF2"; "stairF2_exit"]) - 1.
Proof.
  assert (findRouteF 31 BLDG {| floor := "F2"; pos := Some "server"; haz := ∅ |}
          = Returned (Some {| exitId := "stairF2_exit"; d := 2;
                              path := ["server"; "stairF2"; "stairF2_exit"] |})) as Hrun
    by (vm_compute; reflexivity).
  split; [exact Hrun|].
  destruct (findRoute_BLDG 31 {| floor := "F2"; pos := Some "server"; haz := ∅ |})
    as (res & Hres & Hd).
  - apply (bool_decide_unpack _). vm_compute. reflexivity.
  - intros s fd [= <-] [= <-]. left. unfold declared. apply (bool_decide_unpack _).
    vm_compute. reflexivity.
  - lia.
  - rewrite Hrun in Hres. injection Hres as <-. exact (Hd _ eq_refl).
Defined.

(** * Drawing the map ([js/render.js]) *)

Lemma find_id {A : Type} (f : A → string) id (l : list A) :
  is_Some (find (λ x, bool_decide (f x = id)) l) ↔ id ∈ f <$> l.
Proof.
  induction l as [|x l IH]; simpl.
  - split; [by intros [? [=]]|by intros ?%elem_of_nil].
  - case_bool_decide as Hx.
    + split; [|eauto]. intros _. rewrite <- Hx. apply elem_of_cons. by left.
    + rewrite IH, elem_of_cons. naive_solver.
Qed.

Lemma find_elem {A : Type} (P : A → bool) (l : list A) x :
  find P l = Some x → x ∈ l ∧ P x = true.
Proof.
  induction l as [|y l IH]; simpl; [done|]. destruct (P y) eqn:Hy.
  - intros [= <-]. split; [apply elem_of_cons; by left|done].
  - intros [Hx ?]%IH. split; [apply elem_of_cons; by right|done].
Qed.

(** [getNodeCenter] finds a centre exactly for the declared nodes of the
    floor, and a room hides an exit of the same id. *)
Theorem getNodeCenter_declared fd id :
  (is_Some (getNodeCenter id (computeCoords fd).1 (computeCoords fd).2) ↔ declared fd id) ∧
  ∀ r, find (λ r, bool_decide (roomId r = id)) (computeCoords fd).1 = Some r →
       getNodeCenter id (computeCoords fd).1 (computeCoords fd).2
       = Some (GCOL !! Room.col (spec_of r), GROW !! Room.row (spec_of r)).
Proof.
  split.
  - unfold declared, allIds, getNodeCenter. simpl. rewrite elem_of_app, <- !find_id.
    destruct (find _ (placeRoom <$> rooms fd)) as [r|]; [split; eauto|].
    destruct (find _ (placeExit <$> exits fd)) as [e|]; [split; eauto|].
    split; [by intros [? [=]]|]. by intros [[? [=]]|[? [=]]].
  - intros r Hr. unfold getNodeCenter. rewrite Hr.
    apply find_elem in Hr as [Hr _]. simpl in Hr.
    apply list_elem_of_fmap in Hr as (r0 & -> & _). done.
Qed.

Lemma getNodeCenter_declared_witness :
  getNodeCenter "kitchen" (computeCoords GF).1 (computeCoords GF).2
  = Some (GCOL !! Room.col (spec_of (placeRoom (R "kitchen" 2 1))),
          GROW !! Room.row (spec_of (placeRoom (R "kitchen" 2 1)))).
Proof.
  destruct (getNodeCenter_declared GF "kitchen") as [_ H]. apply H. reflexivity.
Defined.








Lemma legs_nil : legs [].
Proof. intros i a b H. by rewrite lookup_nil in H. Qed.








Lemma apart_refl (a : coord) : apart a a = false.
Proof. destruct a as [x|]; [|done]. simpl. rewrite Z.sub_diag. done. Qed.

Lemma dedupe_sublist pts : ∀ last, dedupe last pts `sublist_of` pts.
Proof.
  induction pts as [|p pts IH]; intros last; simpl; [done|].
  destruct (apart p.1 last.1 || apart p.2 last.2); [by apply sublist_skip|by apply sublist_cons].
Qed.

Lemma dedupe_apart pts : ∀ last i p q,
  (last :: dedupe last pts) !! i = Some p → (last :: dedupe last pts) !! S i = Some q →
  apart q.1 p.1 || apart q.2 p.2 = true.
Proof.
  induction pts as [|p0 pts IH]; intros last i p q; simpl.
  - destruct i; [done|]. simpl. by rewrite lookup_nil.
  - destruct (apart p0.1 last.1 || apart p0.2 last.2) eqn:Hfar; [|apply IH].
    destruct i as [|i]; simpl.
    + by intros [= <-] [= <-].
    + apply (IH p0 i p q).
Qed.

Lemma dedupe_cover pts : ∀ last p,
  p ∈ pts →
  ∃ q, q ∈ last :: dedupe last pts ∧ apart p.1 q.1 = false ∧ apart p.2 q.2 = false.
Proof.
  induction pts as [|p0 pts IH]; intros last p Hp; [by apply elem_of_nil in Hp|].
  simpl. apply elem_of_cons in Hp as [->|Hp].
  - destruct (apart p0.1 last.1 || apart p0.2 last.2) eqn:Hfar.
    + exists p0. split; [|by rewrite !apart_refl].
      apply elem_of_cons. right. apply elem_of_cons. by left.
    + exists last. split; [apply elem_of_cons; by left|]. by apply orb_false_iff in Hfar.
  - destruct (apart p0.1 last.1 || apart p0.2 last.2).
    + destruct (IH p0 p Hp) as (q & Hq & Hclose). exists q. split; [|done].
      apply elem_of_cons. by right.
    + by apply IH.
Qed.

(** What the loop over [allPts] keeps: the first point and then, in order,
    each point that lies more than one pixel from the last point kept.  So
    two neighbours of the result differ by more than one pixel in [x] or in
    [y], and every point of the input lies within one pixel, in [x] and in
    [y], of some point kept, unless a coordinate is [NaN]. *)
Theorem dedupe_spec first rest :
  (first :: dedupe first rest) `sublist_of` (first :: rest) ∧
  (∀ i p q, (first :: dedupe first rest) !! i = Some p →
            (first :: dedupe first rest) !! S i = Some q →
            apart q.1 p.1 || apart q.2 p.2 = true) ∧
  ∀ p, p ∈ first :: rest →
       ∃ q, q ∈ first :: dedupe first rest ∧ apart p.1 q.1 = false ∧ apart p.2 q.2 = false.
Proof.
  split; [apply sublist_skip, dedupe_sublist|]. split; [apply dedupe_apart|].
  intros p [->|Hp]%elem_of_cons; [|by apply dedupe_cover].
  exists first. split; [apply elem_of_cons; by left|]. by rewrite !apart_refl.
Qed.

Lemma dedupe_spec_witness :
  ∃ q, q ∈ (Some 110, Some 130) :: dedupe (Some 110, Some 130)
             [(Some 110, Some 131); (Some 110, Some 260)] ∧
       apart (Some 110, Some 131).1 q.1 = false ∧ apart (Some 110, Some 131).2 q.2 = false.
Proof.
  destruct (dedupe_spec (Some 110, Some 130) [(Some 110, Some 131); (Some 110, Some 260)])
    as (_ & _ & H).
  apply H. apply elem_of_cons. right. apply elem_of_cons. by left.
Defined.



(** * The status bar *)

Lemma elem_of_values (m : gmap string string) v :
  v ∈ (map_to_list m).*2 ↔ ∃ k, m !! k = Some v.
Proof.
  rewrite list_elem_of_fmap. split.
  - intros ([k v'] & -> & H%elem_of_map_to_list). eauto.
  - intros [k H]. exists (k, v). split; [done|]. by apply elem_of_map_to_list.
Qed.

Lemma filter_none {A : Type} (P : A → Prop) `{!∀ x, Decision (P x)} (l : list A) :
  length (filter P l) = 0%nat ↔ ∀ x, x ∈ l → ¬ P x.
Proof.
  induction l as [|y l IH]; [split; [by intros _ x ?%elem_of_nil|done]|].
  rewrite filter_cons. destruct (decide (P y)) as [Hy|Hy]; simpl.
  - split; [done|]. intros Hn. destruct (Hn y); [apply elem_of_cons; by left|done].
  - rewrite IH. split.
    + intros Hn x [->|Hx]%elem_of_cons; [done|by apply Hn].
    + intros Hn x Hx. apply Hn. apply elem_of_cons. by right.
Qed.

Lemma filter_all {A : Type} (P : A → Prop) `{!∀ x, Decision (P x)} (l : list A) :
  length (filter P l) = length l ↔ ∀ x, x ∈ l → P x.
Proof.
  induction l as [|y l IH]; [split; [by intros _ x ?%elem_of_nil|done]|].
  rewrite filter_cons. pose proof (length_filter P l) as Hle.
  destruct (decide (P y)) as [Hy|Hy]; simpl.
  - split.
    + intros [= Hn] x [->|Hx]%elem_of_cons; [done|]. by apply (proj1 IH Hn).
    + intros Hn. f_equal. apply IH. intros x Hx. apply Hn. apply elem_of_cons. by right.
  - split; [lia|]. intros Hn. destruct Hy. apply Hn. apply elem_of_cons. by left.
Qed.

Lemma activeCount_zero (m : gmap string string) :
  activeCount m = 0%nat ↔ ∀ id v, m !! id = Some v → v = "".
Proof.
  unfold activeCount. rewrite filter_none. split.
  - intros H id v Hv.
    destruct (decide (v = "")) as [->|Hne]; [done|]. destruct (H v).
    + apply elem_of_values. eauto.
    + unfold truthy. by rewrite bool_decide_eq_false_2.
  - intros H v [k Hk]%elem_of_values Hv. rewrite (H k v Hk) in Hv. done.
Qed.

Lemma activeCount_clean st :
  cleanStore st → activeCount (snapshotHazards st) = size (snapshotHazards st).
Proof.
  intros Hclean. unfold activeCount. rewrite <- length_map_to_list.
  rewrite <- (length_fmap snd (map_to_list (snapshotHazards st))). apply filter_all.
  intros v [k Hk]%elem_of_values. unfold snapshotHazards in Hk.
  destruct (haz st !! floor st) as [m|] eqn:Hm; [|done]. simpl in Hk.
  unfold truthy. rewrite bool_decide_eq_false_2; [done|]. by eapply Hclean.
Qed.

(** What [updateStatus] shows: NORMAL exactly when the floor stores no
    mark but empty ones, and the alert strip exactly otherwise; for a
    store without empty values, CAUTION for one or two marked nodes and
    EMERGENCY from three on, an exit-blocked mark counting like any
    other; and all exits are counted open exactly when none of them is
    exit-blocked. *)
Theorem updateStatus_levels bldg st fd sb :
  bldg !! floor st = Some fd →
  updateStatus bldg st = Returned sb →
  (stext sb = "NORMAL" ↔ ∀ id v, snapshotHazards st !! id = Some v → v = "") ∧
  (stripOn sb = false ↔ stext sb = "NORMAL") ∧
  (cleanStore st →
   (stext sb = "CAUTION" ↔ (1 ≤ size (snapshotHazards st) < 3)%nat) ∧
   (stext sb = "EMERGENCY" ↔ (3 ≤ size (snapshotHazards st))%nat)) ∧
  exitCount sb = length (exits fd) ∧
  (openCount sb ≤ exitCount sb)%nat ∧
  (openCount sb = exitCount sb ↔
   ∀ e, e ∈ exits fd → getHaz st (Exit.id e) ≠ "exit-blocked").
Proof.
  intros Hfd. unfold updateStatus. rewrite Hfd. simpl.
  fold (snapshotHazards st).
  pose proof (activeCount_zero (snapshotHazards st)) as Hzero.
  pose proof (activeCount_clean st) as Hsize.
  pose proof (length_filter (λ e, getHaz st (exitId_of e) ≠ "exit-blocked")
                (placeExit <$> exits fd)) as Hle.
  pose proof (filter_all (λ e, getHaz st (exitId_of e) ≠ "exit-blocked")
                (placeExit <$> exits fd)) as Hall.
  rewrite length_fmap in Hle, Hall.
  assert ((∀ x, x ∈ placeExit <$> exits fd → getHaz st (exitId_of x) ≠ "exit-blocked")
          ↔ ∀ e, e ∈ exits fd → getHaz st (Exit.id e) ≠ "exit-blocked") as Hex.
  { split.
    - intros H e He. apply (H (placeExit e)). apply list_elem_of_fmap. eauto.
    - intros H x (e & -> & He)%list_elem_of_fmap. by apply H. }
  rewrite Hex in Hall.
  assert (∀ a b c : StatusBar, ∀ n : nat,
            (if bool_decide (n = 0%nat) then a else if bool_decide (n < 3)%nat then b else c)
            = (if decide (n = 0%nat) then a else if decide (n < 3)%nat then b else c)) as Hif.
  { intros a b c n. repeat case_bool_decide; repeat case_decide; done || lia. }
  rewrite Hif. intros [= <-].
  destruct (decide (activeCount (snapshotHazards st) = 0%nat)) as [H0|H0];
    [|destruct (decide (activeCount (snapshotHazards st) < 3)%nat) as [H3|H3]]; simpl;
    (split; [rewrite <- Hzero; split; (done || lia)|]);
    (split; [done|]);
    (split; [intros <-%Hsize; split; split; (done || lia)|]);
    by rewrite length_fmap.
Qed.

Lemma updateStatus_levels_witness :
  (1 ≤ size (snapshotHazards (onGF None {["exitA" := "exit-blocked"]})) < 3)%nat.
Proof.
  destruct (updateStatus_levels BLDG (onGF None {["exitA" := "exit-blocked"]}) GF
              {| openCount := 1; exitCount := 2; sdot := "sdot warn"; stext := "CAUTION";
                 stripOn := true |}) as (_ & _ & H & _).
  - reflexivity.
  - vm_compute. reflexivity.
  - destruct H as [H _].
    + intros f m id v Hf Hm. unfold onGF in Hf. simpl in Hf.
      apply lookup_singleton_Some in Hf as [<- <-].
      apply lookup_singleton_Some in Hm as [<- <-]. done.
    + by apply H.
Defined.

(** * The page ([js/main.js]) *)

(** Everything the page computes from the state depends on the floor, the
    position and the marks of the current floor only. *)
Lemma view_ext fuel bldg s1 s2 :
  floor s1 = floor s2 → pos s1 = pos s2 → haz s1 !! floor s1 = haz s2 !! floor s2 →
  snapshotHazards s1 = snapshotHazards s2 ∧
  (∀ x, getHaz s1 x = getHaz s2 x) ∧
  (∀ x, isNodeBlocked s1 x = isNodeBlocked s2 x) ∧
  findRouteF fuel bldg s1 = findRouteF fuel bldg s2 ∧
  updateStatus bldg s1 = updateStatus bldg s2 ∧
  (∀ route room, roomClass s1 route room = roomClass s2 route room).
Proof.
  intros Hf Hp Hh.
  assert (snapshotHazards s1 = snapshotHazards s2) as Hs
    by (unfold snapshotHazards; by rewrite Hh).
  assert (∀ x, getHaz s1 x = getHaz s2 x) as Hg
    by (intros x; by rewrite !getHaz_snapshot, Hs).
  split; [done|]. split; [done|]. split; [|split; [|split]].
  - intros x. unfold isNodeBlocked. by rewrite Hg.
  - unfold findRouteF. by rewrite Hf, Hp, Hs.
  - unfold updateStatus. rewrite <- Hh, <- Hf.
    destruct (bldg !! floor s1) as [fd|]; [|done]. simpl.
    by rewrite (list_filter_iff _ (λ e, getHaz s2 (exitId_of e) ≠ "exit-blocked"))
      by (intros e; by rewrite Hg).
  - intros route room. unfold roomClass. by rewrite Hg, Hp.
Qed.

Lemma setFloor_away fuel bldg st id v g :
  g ≠ floor st →
  floor (stateAfter (setFloor fuel bldg g (setHaz st id v)))
  = floor (stateAfter (setFloor fuel bldg g st)) ∧
  pos (stateAfter (setFloor fuel bldg g (setHaz st id v)))
  = pos (stateAfter (setFloor fuel bldg g st)) ∧
  haz (stateAfter (setFloor fuel bldg g (setHaz st id v))) !! g
  = haz (stateAfter (setFloor fuel bldg g st)) !! g ∧
  floor (stateAfter (setFloor fuel bldg g st)) = g.
Proof.
  intros Hne. unfold setFloor. change (pos (setHaz st id v)) with (pos st).
  assert (haz (setHaz st id v) !! g = haz st !! g) as Hh.
  { rewrite haz_setHaz. by rewrite lookup_insert_ne. }
  destruct (bldg !! g) as [fd|]; [|done]. simpl.
  destruct (pos st) as [p|]; [|done].
  by destruct (truthy p && _).
Qed.

(** Hazards are kept per floor: a mark set on one floor changes nothing of
    what the page shows after a switch to another floor: the position, the
    marks of the new floor and what [getHaz] and [isNodeBlocked] read
    there, the route, the status bar and the class of every room are what
    they are without the mark. *)
Theorem hazards_per_floor fuel bldg st id v g a b :
  ordinaryKey (floor st) → ordinaryKey id → ordinaryKey g → g ≠ floor st →
  a = stateAfter (setFloor fuel bldg g (setHaz st id v)) →
  b = stateAfter (setFloor fuel bldg g st) →
  floor a = floor b ∧ pos a = pos b ∧
  snapshotHazards a = snapshotHazards b ∧
  (∀ x, getHaz a x = getHaz b x) ∧
  (∀ x, isNodeBlocked a x = isNodeBlocked b x) ∧
  findRouteF fuel bldg a = findRouteF fuel bldg b ∧
  updateStatus bldg a = updateStatus bldg b ∧
  (∀ route room, roomClass a route room = roomClass b route room).
Proof.
  intros _ _ _ Hne -> ->.
  destruct (setFloor_away fuel bldg st id v g Hne) as (Hf & Hp & Hh & Hg).
  split; [done|]. split; [done|].
  apply view_ext; [done..|]. by rewrite Hf, Hg.
Qed.

Lemma hazards_per_floor_witness :
  findRouteF 40 BLDG
    (stateAfter (setFloor 40 BLDG "F1" (setHaz (onGF (Some "lobby1") ∅) "kitchen" "fire")))
  = findRouteF 40 BLDG (stateAfter (setFloor 40 BLDG "F1" (onGF (Some "lobby1") ∅))) ∧
  findRouteF 40 BLDG (stateAfter (setFloor 40 BLDG "F1" (onGF (Some "lobby1") ∅)))
  = Returned (Some {| exitId := "stairF1_exit"; d := 2;
                      path := ["lobby1"; "stairF1"; "stairF1_exit"] |}).
Proof.
  split; [|vm_compute; reflexivity].
  destruct (hazards_per_floor 40 BLDG (onGF (Some "lobby1") ∅) "kitchen" "fire" "F1"
              (stateAfter (setFloor 40 BLDG "F1"
                             (setHaz (onGF (Some "lobby1") ∅) "kitchen" "fire")))
              (stateAfter (setFloor 40 BLDG "F1" (onGF (Some "lobby1") ∅))))
    as (_ & _ & _ & _ & _ & H & _); [reflexivity|reflexivity|reflexivity|discriminate|
                                     reflexivity|reflexivity|].
  exact H.
Defined.

(** [setFloor] on a floor that has a definition: the floor is switched,
    the hazard store is kept, and a selected position survives exactly
    when it is the id of a room of the new floor. *)
Theorem setFloor_state fuel bldg f st fd :
  bldg !! f = Some fd → pos st ≠ Some "" →
  floor (stateAfter (setFloor fuel bldg f st)) = f ∧
  haz (stateAfter (setFloor fuel bldg f st)) = haz st ∧
  (∀ p, pos (stateAfter (setFloor fuel bldg f st)) = Some p ↔
        pos st = Some p ∧ p ∈ Room.id <$> rooms fd).
Proof.
  intros Hfd Hpos. unfold setFloor. rewrite Hfd. simpl.
  destruct (pos st) as [p|] eqn:Hp; [|split; [done|]; split; [done|]; by intros p; split; [|intros []]].
  assert (truthy p = true) as ->.
  { unfold truthy. rewrite bool_decide_eq_false_2; [done|]. by intros ->. }
  pose proof (find_id roomId p (placeRoom <$> rooms fd)) as Hfind.
  rewrite <- list_fmap_compose in Hfind. change (roomId ∘ placeRoom) with Room.id in Hfind.
  simpl. case_bool_decide as Hroom; simpl.
  - split; [done|]. split; [done|]. intros q. split.
    + intros [= <-]. split; [done|]. by apply Hfind.
    + by intros [[= <-] _].
  - split; [done|]. split; [done|]. intros q. split; [done|].
    intros [[= <-] Hin]. destruct Hroom. by apply Hfind.
Qed.

Lemma setFloor_state_witness :
  pos (stateAfter (setFloor 40 BLDG "F1" (onGF (Some "kitchen") ∅))) = Some "kitchen" ↔
  pos (onGF (Some "kitchen") ∅) = Some "kitchen" ∧ "kitchen" ∈ Room.id <$> rooms F1.
Proof.
  destruct (setFloor_state 40 BLDG "F1" (onGF (Some "kitchen") ∅) F1) as (_ & _ & H).
  - reflexivity.
  - discriminate.
  - apply H.
Defined.

Lemma handle_invariant fuel bldg e st :
  cleanStore st → pos st ≠ Some "" →
  cleanStore (stateAfter (handle fuel bldg e st)) ∧
  pos (stateAfter (handle fuel bldg e st)) ≠ Some "".
Proof.
  intros Hclean Hpos. destruct e as [f|id|value|id value]; simpl.
  - unfold setFloor. destruct (bldg !! f) as [fd|]; [|done]. simpl.
    destruct (pos st) as [p|]; [|done]. by destruct (truthy p && _).
  - split; [done|]. unfold truthy. case_bool_decide; [done|].
    case_bool_decide; simpl; [done|congruence].
  - split; [done|]. unfold truthy. case_bool_decide; simpl; [done|congruence].
  - split; [by apply setHaz_keeps_clean|done].
Qed.

(** Whatever the user does, starting from the state at load time: the
    hazard store never holds an empty value and the position is never the
    empty string, so that [!pos] in [findRoute] means that no position is
    selected. *)
Theorem page_invariant fuel bldg evs :
  cleanStore (run fuel bldg evs initialState) ∧
  pos (run fuel bldg evs initialState) ≠ Some "".
Proof.
  unfold run.
  assert (∀ st, cleanStore st ∧ pos st ≠ Some "" →
            cleanStore (foldl (λ s e, stateAfter (handle fuel bldg e s)) st evs) ∧
            pos (foldl (λ s e, stateAfter (handle fuel bldg e s)) st evs) ≠ Some "") as H.
  { induction evs as [|e evs IH]; intros st [Hc Hp]; [done|]. simpl.
    apply IH. by apply handle_invariant. }
  apply H. split; [apply initialState_clean|done].
Qed.

Lemma handle_floor fuel bldg e st :
  floor (stateAfter (handle fuel bldg e st))
  = match e with TabClick f => f | _ => floor st end.
Proof.
  destruct e as [f|id|value|id value]; simpl; try done.
  unfold setFloor. destruct (bldg !! f) as [fd|]; [|done]. simpl.
  destruct (pos st) as [p|]; [|done]. by destruct (truthy p && _).
Qed.

Lemma room_declared fd p : p ∈ Room.id <$> rooms fd → declared fd p.
Proof.
  intros Hin. unfold declared, allIds, computeCoords. apply elem_of_app. left.
  rewrite <- list_fmap_compose. by change (roomId ∘ placeRoom) with Room.id.
Qed.

Lemma onFloor_posKnown bldg st : onFloor bldg st → posKnown bldg st.
Proof.
  intros Hon s fd Hs Hfd. destruct (Hon s Hs) as (fd' & Hfd' & Hin).
  left. apply room_declared. congruence.
Qed.

Lemma selectable_room bldg st id :
  selectable bldg st id → ∃ fd, bldg !! floor st = Some fd ∧ id ∈ Room.id <$> rooms fd.
Proof.
  intros (fd & r & Hfd & Hr & _ & ->). exists fd. split; [done|].
  apply list_elem_of_fmap. by exists r.
Qed.

(** One offered event keeps the position on the current floor. *)
Lemma handle_onFloor fuel bldg e st :
  is_Some (bldg !! floor st) → onFloor bldg st → pos st ≠ Some "" → offered bldg st e →
  is_Some (bldg !! floor (stateAfter (handle fuel bldg e st))) ∧
  onFloor bldg (stateAfter (handle fuel bldg e st)).
Proof.
  intros Hfloor Hon Hne Hoff. destruct e as [f|id|value|id value]; simpl in *.
  - destruct Hoff as [fd Hfd]. unfold setFloor. rewrite Hfd. simpl.
    pose proof (λ p, find_id roomId p (placeRoom <$> rooms fd)) as Hfind.
    destruct (pos st) as [p|] eqn:Hp; [|split; [by eexists|by intros p [=]]].
    assert (truthy p = true) as ->.
    { unfold truthy. rewrite bool_decide_eq_false_2; [done|]. by intros ->. }
    simpl. case_bool_decide as Hroom; simpl.
    + split; [by eexists|]. intros q [= <-]. exists fd. split; [done|].
      apply Hfind in Hroom. rewrite <- list_fmap_compose in Hroom.
      by change (roomId ∘ placeRoom) with Room.id in Hroom.
    + split; [by eexists|]. by intros q [=].
  - split; [done|]. intros q. simpl. case_bool_decide; [done|].
    destruct (truthy id); [|done]. intros [= <-]. by apply selectable_room.
  - split; [done|]. intros q. simpl. destruct (truthy value) eqn:Hv; [|done].
    intros [= <-]. destruct Hoff as [->|Hsel]; [done|]. by apply selectable_room.
  - split; [done|]. intros q Hq. destruct (Hon q Hq) as (fd & Hfd & Hin). by exists fd.
Qed.

Lemma run_onFloor fuel bldg evs st :
  is_Some (bldg !! floor st) → onFloor bldg st → cleanStore st → pos st ≠ Some "" →
  offeredAll fuel bldg st evs →
  is_Some (bldg !! floor (run fuel bldg evs st)) ∧ onFloor bldg (run fuel bldg evs st).
Proof.
  revert st. induction evs as [|e evs IH]; intros st Hfloor Hon Hclean Hne Hoff; [done|].
  destruct Hoff as [He Hoff]. cbn [run foldl].
  destruct (handle_onFloor fuel bldg e st Hfloor Hon Hne He) as [Hfloor' Hon'].
  destruct (handle_invariant fuel bldg e st Hclean Hne) as [Hclean' Hne'].
  by apply IH.
Qed.

(** On the shipped building, whatever the user clicks and chooses among
    what the page offers: the current floor is a floor of the building,
    the selected position, if any, is a room of that floor, and the route
    computation that starts every rendering returns: it neither throws nor
    runs on (31 units of fuel suffice). *)
Theorem page_routing_returns fuel evs :
  offeredAll fuel BLDG initialState evs → (31 ≤ fuel)%nat →
  is_Some (BLDG !! floor (run fuel BLDG evs initialState)) ∧
  onFloor BLDG (run fuel BLDG evs initialState) ∧
  ∃ res, findRouteF fuel BLDG (run fuel BLDG evs initialState) = Returned res.
Proof.
  intros Hoff Hfuel.
  assert (is_Some (BLDG !! floor initialState)) as H0 by (by eexists).
  assert (onFloor BLDG initialState) as H1 by (by intros p [=]).
  assert (pos initialState ≠ Some "") as H2 by done.
  destruct (run_onFloor fuel BLDG evs initialState H0 H1 initialState_clean H2 Hoff)
    as [Hfloor Hon].
  split; [done|]. split; [done|]. destruct Hfloor as [fd Hfd].
  rewrite (findRouteF_at fuel BLDG _ fd Hfd (BLDG_safeSums fd (BLDG_floors _ _ Hfd))).
  apply BLDG_returns; [by eexists|by apply onFloor_posKnown|done].
Qed.

Lemma page_routing_returns_witness :
  (∃ res, findRouteF 31 BLDG
            (run 31 BLDG [RoomClick "kitchen"; HazSelect "washroom" "fire"; TabClick "F1";
                          PosSelect "lobby1"; HazSelect "wash1" "smoke"]
               initialState) = Returned res) ∧
  findRouteF 31 BLDG
    (run 31 BLDG [RoomClick "kitchen"; HazSelect "washroom" "fire"; TabClick "F1";
                  PosSelect "lobby1"; HazSelect "wash1" "smoke"]
       initialState)
  = Returned (Some {| exitId := "stairF1_exit"; d := 2;
                      path := ["lobby1"; "stairF1"; "stairF1_exit"] |}).
Proof.
  split; [|vm_compute; reflexivity].
  apply (page_routing_returns 31
           [RoomClick "kitchen"; HazSelect "washroom" "fire"; TabClick "F1";
            PosSelect "lobby1"; HazSelect "wash1" "smoke"]); [|lia].
  cbn [offeredAll offered]. split; [|split; [|split; [|split; [|split; [|done]]]]].
  - exists GF, (R "kitchen" 2 1). split; [reflexivity|]. split; [|done]. set_solver.
  - left. split; [|set_solver]. exists GF, (R "washroom" 0 2).
    split; [reflexivity|]. split; [|done]. set_solver.
  - by eexists.
  - right. exists F1, (R "lobby1" 1 1). split; [reflexivity|]. split; [|done]. set_solver.
  - left. split; [|set_solver]. exists F1, (R "wash1" 2 1).
    split; [reflexivity|]. split; [|done]. set_solver.
Defined.

(** * The floor plan ([js/data.js]) *)

Lemma placeRoom_box (r : Room.t) :
  (Room.col r < 3)%nat → (Room.row r < 3)%nat →
  ∃ x y, GCOL !! Room.col r = Some (x + 90) ∧ GROW !! Room.row r = Some (y + 40) ∧
         rx (box (placeRoom r)) = Some x ∧ ry (box (placeRoom r)) = Some y ∧
         x = 250 * Z.of_nat (Room.col r) + 20 ∧ y = 130 * Z.of_nat (Room.row r) + 90.
Proof.
  intros Hc Hr. destruct r as [i c w s]. simpl in *.
  exists (250 * Z.of_nat c + 20), (130 * Z.of_nat w + 90).
  destruct c as [|[|[|c]]]; [| | |lia]; (destruct w as [|[|[|w]]]; [| | |lia]);
    repeat split; reflexivity.
Qed.

(** The rectangles that [computeCoords] gives to the rooms of a floor on
    the grid: the centre of a room is the centre of its rectangle, the
    rectangle lies within the building boundary that [drawMap] draws
    (15, 15, 690 wide, 480 high), and rooms in different cells of the grid
    do not overlap. *)
Theorem computeCoords_layout fd p1 p2 :
  inGrid fd → p1 ∈ (computeCoords fd).1 → p2 ∈ (computeCoords fd).1 →
  ∃ x1 y1 x2 y2,
    rx (box p1) = Some x1 ∧ ry (box p1) = Some y1 ∧
    rx (box p2) = Some x2 ∧ ry (box p2) = Some y2 ∧
    cx p1 = Some (x1 + rw (box p1) / 2) ∧ cy p1 = Some (y1 + rh (box p1) / 2) ∧
    15 ≤ x1 ∧ x1 + rw (box p1) ≤ 15 + 690 ∧ 15 ≤ y1 ∧ y1 + rh (box p1) ≤ 15 + 480 ∧
    ((Room.col (spec_of p1), Room.row (spec_of p1))
     ≠ (Room.col (spec_of p2), Room.row (spec_of p2)) →
     x1 + rw (box p1) ≤ x2 ∨ x2 + rw (box p2) ≤ x1 ∨
     y1 + rh (box p1) ≤ y2 ∨ y2 + rh (box p2) ≤ y1).
Proof.
  intros [Hgrid _] (r1 & -> & [Hc1 Hr1]%Hgrid)%list_elem_of_fmap
         (r2 & -> & [Hc2 Hr2]%Hgrid)%list_elem_of_fmap.
  destruct (placeRoom_box r1 Hc1 Hr1) as (x1 & y1 & Hx1 & Hy1 & Hbx1 & Hby1 & Ex1 & Ey1).
  destruct (placeRoom_box r2 Hc2 Hr2) as (x2 & y2 & Hx2 & Hy2 & Hbx2 & Hby2 & Ex2 & Ey2).
  exists x1, y1, x2, y2. rewrite Hbx1, Hby1, Hbx2, Hby2.
  change (rw (box (placeRoom r1))) with 180. change (rh (box (placeRoom r1))) with 80.
  change (rw (box (placeRoom r2))) with 180. change (rh (box (placeRoom r2))) with 80.
  change (cx (placeRoom r1)) with (GCOL !! Room.col r1).
  change (cy (placeRoom r1)) with (GROW !! Room.row r1).
  rewrite Hx1, Hy1. change (180 / 2) with 90. change (80 / 2) with 40.
  repeat (split; [done || lia|]).
  change (spec_of (placeRoom r1)) with r1. change (spec_of (placeRoom r2)) with r2.
  intros Hne.
  assert (Room.col r1 ≠ Room.col r2 ∨ Room.row r1 ≠ Room.row r2) as [H|H]; [|lia..].
  destruct (decide (Room.col r1 = Room.col r2)) as [Hc|Hc]; [|by left].
  right. intros Hr. destruct Hne. by rewrite Hc, Hr.
Qed.

Lemma computeCoords_layout_witness :
  ∃ x1 y1 x2 y2,
    rx (box (placeRoom (R "entrance" 0 0))) = Some x1 ∧
    ry (box (placeRoom (R "entrance" 0 0))) = Some y1 ∧
    rx (box (placeRoom (R "kitchen" 2 1))) = Some x2 ∧
    ry (box (placeRoom (R "kitchen" 2 1))) = Some y2 ∧
    cx (placeRoom (R "entrance" 0 0))
    = Some (x1 + rw (box (placeRoom (R "entrance" 0 0))) / 2) ∧
    cy (placeRoom (R "entrance" 0 0))
    = Some (y1 + rh (box (placeRoom (R "entrance" 0 0))) / 2) ∧
    15 ≤ x1 ∧ x1 + rw (box (placeRoom (R "entrance" 0 0))) ≤ 15 + 690 ∧
    15 ≤ y1 ∧ y1 + rh (box (placeRoom (R "entrance" 0 0))) ≤ 15 + 480 ∧
    ((Room.col (spec_of (placeRoom (R "entrance" 0 0))),
      Room.row (spec_of (placeRoom (R "entrance" 0 0))))
     ≠ (Room.col (spec_of (placeRoom (R "kitchen" 2 1))),
        Room.row (spec_of (placeRoom (R "kitchen" 2 1)))) →
     x1 + rw (box (placeRoom (R "entrance" 0 0))) ≤ x2 ∨
     x2 + rw (box (placeRoom (R "kitchen" 2 1))) ≤ x1 ∨
     y1 + rh (box (placeRoom (R "entrance" 0 0))) ≤ y2 ∨
     y2 + rh (box (placeRoom (R "kitchen" 2 1))) ≤ y1).
Proof.
  apply (computeCoords_layout GF).
  - split.
    + intros r Hr. unfold GF, rooms in Hr.
      repeat (apply elem_of_cons in Hr as [ -> | Hr ]; [simpl; lia|]).
      by apply elem_of_nil in Hr.
    + intros e He. unfold GF, exits in He.
      repeat (apply elem_of_cons in He as [ -> | He ]; [simpl; lia|]).
      by apply elem_of_nil in He.
  - apply list_elem_of_fmap. exists (R "entrance" 0 0). split; [done|].
    apply elem_of_cons. by left.
  - apply list_elem_of_fmap. exists (R "kitchen" 2 1). split; [done|].
    unfold GF, rooms. do 4 (apply elem_of_cons; right). apply elem_of_cons. by left.
Defined.
